(** * MXL: index conversion and the flow synchronization group

    A shallow embedding of two pieces of the Media eXchange Layer:

    - [IndexConversion.hpp]: [timestampToIndex] and [indexToTimestamp],
      the rational-rate conversion between TAI nanoseconds and grain
      indices;
    - [FlowSynchronizationGroup.{hpp,cpp}]: the list of enrolled readers,
      [addReader], [removeReader] and [waitForDataAt].

    Machine integers are modelled as [Z] with the wrap-around of each
    width written out. *)

From Stdlib Require Import ZArith Lia Bool.

From stdpp Require Import base list strings.

Local Open Scope Z_scope.

(** ** Fixed-width integers *)

Module Int.

(** Value ranges of [std::int64_t], [std::uint64_t] and [__int128_t]. *)
Definition in_int64 (z : Z) : Prop := - 2 ^ 63 <= z < 2 ^ 63.
Definition in_uint64 (z : Z) : Prop := 0 <= z < 2 ^ 64.
Definition in_int128 (z : Z) : Prop := - 2 ^ 127 <= z < 2 ^ 127.

(** [static_cast<std::uint64_t>]: reduction modulo 2^64. *)
Definition to_uint64 (z : Z) : Z := z mod 2 ^ 64.

(** [static_cast<std::int64_t>]: two's complement reduction. *)
Definition to_int64 (z : Z) : Z := (z + 2 ^ 63) mod 2 ^ 64 - 2 ^ 63.

(** The value an [__int128_t] holds for the exact result [z]. Overflow of
    a signed operation is undefined in C++; the embedding writes the two's
    complement wrap-around the hardware computes, and every theorem below
    that speaks about an exact result first shows that the operands stay
    inside [in_int128]. *)
Definition to_int128 (z : Z) : Z := (z + 2 ^ 127) mod 2 ^ 128 - 2 ^ 127.

(** [__int128_t] arithmetic; [/] truncates toward zero ([Z.quot]). *)
Definition add128 (a b : Z) : Z := to_int128 (a + b).
Definition mul128 (a b : Z) : Z := to_int128 (a * b).
Definition div128 (a b : Z) : Z := to_int128 (Z.quot a b).

(** Ceiling of [a / b] for a positive [b]. *)
Definition ceil_div (a b : Z) : Z := - ((- a) / b).

End Int.

(** ** IndexConversion.hpp *)

Module IndexConversion.
Import Int.

(** [mxlRational] of [mxl/rational.h]: two [int64_t] fields. *)
Record mxlRational : Type := {
  numerator : Z;
  denominator : Z
}.

Definition rational_wf (r : mxlRational) : Prop :=
  in_int64 (numerator r) /\ in_int64 (denominator r).

(** [Timepoint] of [Timing.hpp]: a signed 64-bit count of nanoseconds;
    [Timepoint{}] is the zero timepoint. *)
Record Timepoint : Type := { value : Z }.

Definition Timepoint_zero : Timepoint := {| value := 0 |}.

(** Modelled from the spec: the macro [MXL_UNDEFINED_INDEX] of
    [mxl/flow.h] is not part of the sources at hand; the data model
    reserves the value 2^64 - 1 for it. *)
Definition MXL_UNDEFINED_INDEX : Z := 2 ^ 64 - 1.

(** [constexpr std::uint64_t timestampToIndex(mxlRational const&, Timepoint)] *)
Definition timestampToIndex (editRate : mxlRational) (timestamp : Timepoint) : Z :=
  if negb (denominator editRate =? 0) && negb (numerator editRate =? 0) then
    to_uint64
      (div128
         (add128 (mul128 (value timestamp) (numerator editRate))
                 (mul128 500000000 (denominator editRate)))
         (mul128 1000000000 (denominator editRate)))
  else MXL_UNDEFINED_INDEX.

(** [constexpr Timepoint indexToTimestamp(mxlRational const&, std::uint64_t)] *)
Definition indexToTimestamp (editRate : mxlRational) (index : Z) : Timepoint :=
  if negb (denominator editRate =? 0) && negb (numerator editRate =? 0) then
    {| value :=
         to_int64
           (div128
              (add128 (mul128 (mul128 index (denominator editRate)) 1000000000)
                      (div128 (numerator editRate) 2))
              (numerator editRate)) |}
  else Timepoint_zero.

(** The conversions as the data model writes them, with [floor] read as
    [Z.div] (which rounds toward minus infinity) and no width limit. *)
Definition spec_timestampToIndex (r : mxlRational) (t : Z) : Z :=
  (t * numerator r + 500000000 * denominator r) / (1000000000 * denominator r).

Definition spec_indexToTimestamp (r : mxlRational) (index : Z) : Z :=
  (index * denominator r * 1000000000 + numerator r / 2) / numerator r.

(** Half a grain period in nanoseconds, rounded up:
    ceil(10^9 * den / (2 * num)). *)
Definition half_period (r : mxlRational) : Z :=
  ceil_div (1000000000 * denominator r) (2 * numerator r).

(** 30000/1001 grains per second. *)
Definition NTSC : mxlRational := {| numerator := 30000; denominator := 1001 |}.

(** Overflow of a signed operation is undefined in C++. The [__int128_t]
    operations of [timestampToIndex] (lines 16 and 17), each with a result
    that [__int128_t] holds: the two products of the dividend, their sum,
    the product that is the divisor, and the quotient. A rate with a zero
    term computes nothing. (The conversion of the quotient to
    [std::uint64_t] is no overflow: it reduces modulo 2^64.) *)
Definition timestampToIndex_in_range (editRate : mxlRational) (timestamp : Timepoint) : Prop :=
  denominator editRate <> 0 -> numerator editRate <> 0 ->
  in_int128 (value timestamp * numerator editRate) /\
  in_int128 (500000000 * denominator editRate) /\
  in_int128 (value timestamp * numerator editRate + 500000000 * denominator editRate) /\
  in_int128 (1000000000 * denominator editRate) /\
  in_int128 (Z.quot (value timestamp * numerator editRate + 500000000 * denominator editRate)
                    (1000000000 * denominator editRate)).

(** The [__int128_t] operations of [indexToTimestamp] (line 31): the two
    products, the sum with half the numerator, and the quotient. *)
Definition indexToTimestamp_in_range (editRate : mxlRational) (index : Z) : Prop :=
  denominator editRate <> 0 -> numerator editRate <> 0 ->
  in_int128 (index * denominator editRate) /\
  in_int128 (index * denominator editRate * 1000000000) /\
  in_int128 (index * denominator editRate * 1000000000 + Z.quot (numerator editRate) 2) /\
  in_int128 (Z.quot (index * denominator editRate * 1000000000 + Z.quot (numerator editRate) 2)
                    (numerator editRate)).

End IndexConversion.

(** ** FlowSynchronizationGroup.hpp / FlowSynchronizationGroup.cpp *)

Module FlowSynchronizationGroup.
Import Int IndexConversion.

(** Modelled from the spec: [mxlStatus] of [mxl/mxl.h] is not part of the
    sources at hand. These are the two codes the group's code names, the
    results the spec lists for [waitForGrain] and [waitForSamples], and the
    code the spec names for a reader that no longer exists. *)
Inductive mxlStatus : Type :=
  | MXL_STATUS_OK
  | MXL_ERR_UNKNOWN
  | MXL_ERR_TIMEOUT
  | MXL_ERR_UNDER_WRITE
  | MXL_ERR_READER_GONE.

#[global] Instance mxlStatus_eq_dec : EqDecision mxlStatus.
Proof. solve_decision. Defined.

(** [enum class Variant : std::uint8_t] *)
Inductive Variant : Type := Discrete | Continuous.

(** A [FlowReader const*]: the identity (address) of a reader object. *)
Definition FlowReader : Type := nat.

(** [struct ListEntry] *)
Record ListEntry : Type := {
  reader : FlowReader;
  minValidSlices : Z;
  variant : Variant;
  grainRate : mxlRational;
  maxObservedSourceDelay : Z
}.

Definition set_minValidSlices (m : Z) (e : ListEntry) : ListEntry :=
  {| reader := reader e; minValidSlices := m; variant := variant e;
     grainRate := grainRate e;
     maxObservedSourceDelay := maxObservedSourceDelay e |}.

Definition set_maxObservedSourceDelay (d : Z) (e : ListEntry) : ListEntry :=
  {| reader := reader e; minValidSlices := minValidSlices e;
     variant := variant e; grainRate := grainRate e;
     maxObservedSourceDelay := d |}.

(** [using ReaderList = std::forward_list<ListEntry>]: the nodes in list
    order. An iterator is the position of its node; [end()] is the length
    of the list. *)
Abbreviation ReaderList := (list ListEntry).

(** The readers enrolled, in list order. *)
Definition readers (l : ReaderList) : list FlowReader := reader <$> l.

(** The observed delay cached for reader [r], when it is enrolled. *)
Fixpoint delay_of (r : FlowReader) (l : ReaderList) : option Z :=
  match l with
  | [] => None
  | e :: rest =>
      if decide (reader e = r) then Some (maxObservedSourceDelay e)
      else delay_of r rest
  end.

(** Entry [e'] is entry [e] with an observed delay that is at least as
    large; nothing else differs. *)
Definition delay_grown (e e' : ListEntry) : Prop :=
  reader e' = reader e /\ minValidSlices e' = minValidSlices e /\
  variant e' = variant e /\ grainRate e' = grainRate e /\
  maxObservedSourceDelay e <= maxObservedSourceDelay e'.

(** [std::forward_list::splice_after(pos, other, it)] with
    [pos = before_begin()] and [other = *this], as called on line 116 of
    the implementation. The standard ([forward.list.ops]) gives this
    overload the effect "inserts the element following [it] into [*this],
    following [pos], and removes it from [other]", and requires that the
    iterator following [it] is dereferenceable. So the node moved to the
    front is the successor of [it], and the call is undefined ([None]) when
    [it] is the last node. *)
Definition splice_after_before_begin (l : ReaderList) (it : nat) : option ReaderList :=
  match l !! S it with
  | Some moved => Some (moved :: take (S it) l ++ drop (S (S it)) l)
  | None => None
  end.

(** What the comment above line 106 describes: the node [it] itself is
    moved to the front. *)
Definition move_to_front (l : ReaderList) (it : nat) : option ReaderList :=
  match l !! it with
  | Some moved => Some (moved :: take it l ++ drop (S it) l)
  | None => None
  end.

(** What the list and the iterator can be after a pass that recorded the
    delay [sourceDelay] for the entry [current] at position [it]: the entry
    is updated in place, and then either the iterator moves on or the
    splice of line 116 takes place. *)
Definition recorded (l : ReaderList) (it : nat) (current : ListEntry) (sourceDelay : Z)
    (l' : ReaderList) (it' : nat) : Prop :=
  let l1 := <[it := set_maxObservedSourceDelay sourceDelay current]> l in
  (l' = l1 /\ it' = S it) \/
  (splice_after_before_begin l1 it = Some l' /\ it' = 0%nat).

(** List [l'] holds the readers of [l], each with the entry it has in [l]
    up to a larger observed delay. *)
Definition grows (l l' : ReaderList) : Prop :=
  readers l' ≡ₚ readers l /\
  forall e', e' ∈ l' -> exists e, e ∈ l /\ delay_grown e e'.

Section Group.

(** The flow configuration a reader reports; only [common.grainRate] is
    used. It is fixed for the lifetime of the flow. *)
Variable getFlowConfigInfo : FlowReader -> mxlRational.

(** [ListEntry::ListEntry(FlowReader const&, Variant)] *)
Definition ListEntry_base (r : FlowReader) (v : Variant) : ListEntry :=
  {| reader := r; minValidSlices := 0; variant := v;
     grainRate := getFlowConfigInfo r; maxObservedSourceDelay := 0 |}.

(** [ListEntry::ListEntry(DiscreteFlowReader const&, std::uint16_t)] *)
Definition ListEntry_discrete (r : FlowReader) (m : Z) : ListEntry :=
  set_minValidSlices m (ListEntry_base r Discrete).

(** [ListEntry::ListEntry(ContinuousFlowReader const&)] *)
Definition ListEntry_continuous (r : FlowReader) : ListEntry :=
  ListEntry_base r Continuous.

(** [addReader(DiscreteFlowReader const&, std::uint16_t)]: walk the list
    from the head; at the first entry for this reader store the new
    [minValidSlices] and return; at the end emplace a new entry after the
    last node. *)
Fixpoint addReader_discrete (r : FlowReader) (m : Z) (l : ReaderList) : ReaderList :=
  match l with
  | [] => [ListEntry_discrete r m]
  | current :: rest =>
      if decide (reader current = r) then set_minValidSlices m current :: rest
      else current :: addReader_discrete r m rest
  end.

(** [addReader(ContinuousFlowReader const&)] *)
Fixpoint addReader_continuous (r : FlowReader) (l : ReaderList) : ReaderList :=
  match l with
  | [] => [ListEntry_continuous r]
  | current :: rest =>
      if decide (reader current = r) then current :: rest
      else current :: addReader_continuous r rest
  end.

(** [removeReader(FlowReader const&)]: erase the first entry for this
    reader, if any. *)
Fixpoint removeReader (r : FlowReader) (l : ReaderList) : ReaderList :=
  match l with
  | [] => []
  | current :: rest =>
      if decide (reader current = r) then rest
      else current :: removeReader r rest
  end.

(** *** The environment of [waitForDataAt]

    The readers, the shared memory behind them and the clock are outside
    the group. [World] is their state; every call into them may change it. *)
Variable World : Type.

(** Whether the reader object behind a pointer still exists. Calling a
    member function through a pointer to a destroyed object is undefined. *)
Variable alive : World -> FlowReader -> bool.

(** [reader->getFlowRuntimeInfo().headIndex] *)
Variable getFlowRuntimeInfo : FlowReader -> World -> Z * World.

(** [DiscreteFlowReader::waitForGrain(index, minValidSlices, deadline)] *)
Variable waitForGrain : FlowReader -> Z -> Z -> Timepoint -> World -> mxlStatus * World.

(** [ContinuousFlowReader::waitForSamples(index, deadline)] *)
Variable waitForSamples : FlowReader -> Z -> Timepoint -> World -> mxlStatus * World.

(** [currentTime(Clock::TAI)] *)
Variable currentTime : World -> Timepoint * World.

(** What one pass through the body of the [for] loop does. *)
Inductive Step : Type :=
  | Continue (l : ReaderList) (it : nat) (w : World)
  | Return (s : mxlStatus) (l : ReaderList) (w : World)
  | UndefinedBehaviour.

(** The [switch] on [current->variant] (lines 87 to 98). *)
Definition wait_on (current : ListEntry) (expectedIndex : Z) (deadline : Timepoint)
    (w : World) : mxlStatus * World :=
  match variant current with
  | Discrete => waitForGrain (reader current) expectedIndex (minValidSlices current) deadline w
  | Continuous => waitForSamples (reader current) expectedIndex deadline w
  end.

(** The pass over [current] in world [w] waits for its flow, the wait
    succeeds, and the TAI clock read afterwards is [sourceDelay]
    nanoseconds past the expected arrival time of the grain. *)
Definition records_delay (originTime deadline : Timepoint) (current : ListEntry)
    (w : World) (sourceDelay : Z) : Prop :=
  let expectedIndex := timestampToIndex (grainRate current) originTime in
  let expectedArrivalTime := indexToTimestamp (grainRate current) expectedIndex in
  exists headIndex w1 w2 currentTaiTime w3,
    getFlowRuntimeInfo (reader current) w = (headIndex, w1) /\
    expectedIndex > headIndex /\
    wait_on current expectedIndex deadline w1 = (MXL_STATUS_OK, w2) /\
    currentTime w2 = (currentTaiTime, w3) /\
    value currentTaiTime > value expectedArrivalTime /\
    sourceDelay = to_int64 (value currentTaiTime - value expectedArrivalTime).

(** Lines 106 to 119, after a wait that returned [MXL_STATUS_OK]. The
    entry [current] sits at position [cur]; the loop iterator has already
    been advanced to [S cur] (line 81). The difference of two timepoints
    is a signed 64-bit count of nanoseconds. A splice moves the node the
    iterator points to; afterwards that node is the first of the list, and
    the loop goes on from there. *)
Definition record_source_delay (l : ReaderList) (cur : nat) (current : ListEntry)
    (expectedIndex : Z) (w : World) : Step :=
  let expectedArrivalTime := indexToTimestamp (grainRate current) expectedIndex in
  let '(currentTaiTime, w) := currentTime w in
  if value currentTaiTime >? value expectedArrivalTime then
    let sourceDelay := to_int64 (value currentTaiTime - value expectedArrivalTime) in
    if sourceDelay >? maxObservedSourceDelay current then
      let current := set_maxObservedSourceDelay sourceDelay current in
      let l := <[cur := current]> l in
      match l !! 0%nat with
      | Some begin =>
          if maxObservedSourceDelay current >? maxObservedSourceDelay begin then
            match splice_after_before_begin l cur with
            | Some l => Continue l 0 w
            | None => UndefinedBehaviour
            end
          else Continue l (S cur) w
      | None => UndefinedBehaviour
      end
    else Continue l (S cur) w
  else Continue l (S cur) w.

(** The body of the loop of [waitForDataAt] (lines 81 to 125), with the
    iterator at position [it]. *)
Definition waitForDataAt_body (originTime deadline : Timepoint)
    (l : ReaderList) (it : nat) (w : World) : Step :=
  match l !! it with
  | None => Return MXL_STATUS_OK l w
  | Some current =>
      let expectedIndex := timestampToIndex (grainRate current) originTime in
      if negb (alive w (reader current)) then UndefinedBehaviour else
      let '(headIndex, w) := getFlowRuntimeInfo (reader current) w in
      if expectedIndex >? headIndex then
        if negb (alive w (reader current)) then UndefinedBehaviour else
        let '(result, w) := wait_on current expectedIndex deadline w in
        if decide (result = MXL_STATUS_OK) then
          record_source_delay l it current expectedIndex w
        else Return result l w
      else Continue l (S it) w
  end.

(** The result of a call. The loop has no bound of its own (a splice sends
    the iterator back to the head of the list), so it is run on fuel. *)
Inductive Outcome : Type :=
  | Returns (s : mxlStatus) (l : ReaderList) (w : World)
  | Undefined
  | OutOfFuel.

Fixpoint waitForDataAt_loop (fuel : nat) (originTime deadline : Timepoint)
    (l : ReaderList) (it : nat) (w : World) : Outcome :=
  match fuel with
  | O => OutOfFuel
  | S fuel =>
      match waitForDataAt_body originTime deadline l it w with
      | Continue l it w => waitForDataAt_loop fuel originTime deadline l it w
      | Return s l w => Returns s l w
      | UndefinedBehaviour => Undefined
      end
  end.

(** [mxlStatus waitForDataAt(Timepoint originTime, Timepoint deadline) const] *)
Definition waitForDataAt (fuel : nat) (originTime deadline : Timepoint)
    (l : ReaderList) (w : World) : Outcome :=
  waitForDataAt_loop fuel originTime deadline l 0 w.

(** The status the synchronization group's contract gives a call: the
    entries are taken in list order; an entry whose flow already holds the
    expected index is skipped; otherwise its flow is waited for, the first
    result other than [MXL_STATUS_OK] is returned at once, and after a
    successful wait the clock is read for the source delay. The call
    returns [MXL_STATUS_OK] when no wait failed. *)
Fixpoint spec_waitForDataAt (originTime deadline : Timepoint)
    (todo : ReaderList) (w : World) : mxlStatus * World :=
  match todo with
  | [] => (MXL_STATUS_OK, w)
  | current :: rest =>
      let expectedIndex := timestampToIndex (grainRate current) originTime in
      let '(headIndex, w) := getFlowRuntimeInfo (reader current) w in
      if expectedIndex <=? headIndex then spec_waitForDataAt originTime deadline rest w
      else
        let '(result, w) := wait_on current expectedIndex deadline w in
        if decide (result = MXL_STATUS_OK) then
          let '(_, w) := currentTime w in
          spec_waitForDataAt originTime deadline rest w
        else (result, w)
  end.

(** The calls in which no wait succeeds: every reader met is alive, and
    either all flows already hold their expected index, or the first flow
    that does not makes its wait fail. [None] for any other call. *)
Fixpoint settled_without_delay (originTime deadline : Timepoint)
    (todo : ReaderList) (w : World) : option (mxlStatus * World) :=
  match todo with
  | [] => Some (MXL_STATUS_OK, w)
  | current :: rest =>
      let expectedIndex := timestampToIndex (grainRate current) originTime in
      if alive w (reader current) then
        let '(headIndex, w) := getFlowRuntimeInfo (reader current) w in
        if expectedIndex <=? headIndex then
          settled_without_delay originTime deadline rest w
        else if alive w (reader current) then
          let '(result, w) := wait_on current expectedIndex deadline w in
          if decide (result = MXL_STATUS_OK) then None else Some (result, w)
        else None
      else None
  end.

(** The signed arithmetic of the pass over [current] that starts in world
    [w] stays in range: the [__int128_t] operations of [timestampToIndex]
    (line 83) and, after a successful wait, those of [indexToTimestamp]
    (line 106) and, when the clock reading is the later one, the difference
    of line 110, a signed 64-bit count of nanoseconds. Overflow in any of
    them is undefined in C++; [waitForDataAt_body] writes the wrapped
    value the hardware computes, and a statement about which passes are
    undefined carries [pass_in_range] as a hypothesis. *)
Definition pass_in_range (originTime deadline : Timepoint) (current : ListEntry)
    (w : World) : Prop :=
  let expectedIndex := timestampToIndex (grainRate current) originTime in
  let expectedArrivalTime := indexToTimestamp (grainRate current) expectedIndex in
  timestampToIndex_in_range (grainRate current) originTime /\
  forall headIndex w1 w2 currentTaiTime w3,
    getFlowRuntimeInfo (reader current) w = (headIndex, w1) ->
    expectedIndex > headIndex ->
    wait_on current expectedIndex deadline w1 = (MXL_STATUS_OK, w2) ->
    currentTime w2 = (currentTaiTime, w3) ->
    indexToTimestamp_in_range (grainRate current) expectedIndex /\
    (value currentTaiTime > value expectedArrivalTime ->
     in_int64 (value currentTaiTime - value expectedArrivalTime)).

(** One operation on the group: the list before and after. *)
Inductive group_step : ReaderList -> ReaderList -> Prop :=
  | step_addReader_discrete r m l :
      group_step l (addReader_discrete r m l)
  | step_addReader_continuous r l :
      group_step l (addReader_continuous r l)
  | step_removeReader r l :
      group_step l (removeReader r l)
  | step_waitForDataAt fuel originTime deadline l w s l' w' :
      waitForDataAt fuel originTime deadline l w = Returns s l' w' ->
      group_step l l'.

(** The groups that a sequence of operations builds from the empty one. *)
Inductive reachable : ReaderList -> Prop :=
  | reachable_empty : reachable []
  | reachable_step l l' : reachable l -> group_step l l' -> reachable l'.

(** A sequence of operations during which reader [r] stays enrolled. *)
Inductive steps_enrolled (r : FlowReader) : ReaderList -> ReaderList -> Prop :=
  | steps_enrolled_refl l : steps_enrolled r l l
  | steps_enrolled_step l l' l'' :
      steps_enrolled r l l' -> group_step l' l'' -> r ∈ readers l'' ->
      steps_enrolled r l l''.

End Group.

Arguments Continue {World} l it w.
Arguments Return {World} s l w.
Arguments UndefinedBehaviour {World}.
Arguments Returns {World} s l w.
Arguments Undefined {World}.
Arguments OutOfFuel {World}.

End FlowSynchronizationGroup.

(** ** Concrete groups and environments

    Three readers of one-grain-per-second flows. The environment keeps the
    TAI clock and the head index of every flow; a wait on a reader returns
    [MXL_STATUS_OK] once the latency of its flow has passed, with the head
    of the flow at the index waited for, or [MXL_ERR_TIMEOUT] at the
    deadline. *)

Module Scenario.
Import Int IndexConversion FlowSynchronizationGroup.

Definition A : FlowReader := 1%nat.
Definition B : FlowReader := 2%nat.
Definition C : FlowReader := 3%nat.

Definition one_per_second : mxlRational := {| numerator := 1; denominator := 1 |}.

Definition getFlowConfigInfo (r : FlowReader) : mxlRational := one_per_second.

Record World : Type := {
  now : Z;
  heads : FlowReader -> Z;
  latency : FlowReader -> Z;
  destroyed : list FlowReader
}.

Definition alive (w : World) (r : FlowReader) : bool :=
  negb (bool_decide (r ∈ destroyed w)).

Definition getFlowRuntimeInfo (r : FlowReader) (w : World) : Z * World :=
  (heads w r, w).

Definition wait_until (r : FlowReader) (index : Z) (deadline : Timepoint)
    (w : World) : mxlStatus * World :=
  if now w + latency w r <=? value deadline then
    (MXL_STATUS_OK,
     {| now := now w + latency w r;
        heads := fun r' => if decide (r' = r) then index else heads w r';
        latency := latency w; destroyed := destroyed w |})
  else
    (MXL_ERR_TIMEOUT,
     {| now := value deadline; heads := heads w; latency := latency w;
        destroyed := destroyed w |}).

Definition waitForGrain (r : FlowReader) (index minValidSlices : Z)
    (deadline : Timepoint) (w : World) : mxlStatus * World :=
  wait_until r index deadline w.

Definition waitForSamples (r : FlowReader) (index : Z)
    (deadline : Timepoint) (w : World) : mxlStatus * World :=
  wait_until r index deadline w.

Definition currentTime (w : World) : Timepoint * World :=
  ({| value := now w |}, w).

(** [waitForDataAt] and its loop body in this environment. *)
Definition run (fuel : nat) (originTime deadline : Timepoint)
    (l : ReaderList) (w : World) : Outcome World :=
  waitForDataAt World alive getFlowRuntimeInfo waitForGrain waitForSamples
    currentTime fuel originTime deadline l w.

Definition spec_run (originTime deadline : Timepoint)
    (l : ReaderList) (w : World) : mxlStatus * World :=
  spec_waitForDataAt World getFlowRuntimeInfo waitForGrain waitForSamples
    currentTime originTime deadline l w.

Definition run_body (originTime deadline : Timepoint)
    (l : ReaderList) (it : nat) (w : World) : Step World :=
  waitForDataAt_body World alive getFlowRuntimeInfo waitForGrain waitForSamples
    currentTime originTime deadline l it w.

(** Ten seconds after the epoch, with a deadline 100 ms later. *)
Definition originTime : Timepoint := {| value := 10000000000 |}.
Definition deadline : Timepoint := {| value := 10100000000 |}.

(** At the origin time the flows of [A] and [C] already hold grain 10; the
    grain of [B] arrives 50 ms late. *)
Definition slow_B : World :=
  {| now := 10000000000;
     heads := fun r => if decide (r = B) then 9 else 10;
     latency := fun r => if decide (r = B) then 50000000 else 0;
     destroyed := [] |}.

(** The same flows, with the grain of [B] 200 ms late. *)
Definition very_slow_B : World :=
  {| now := now slow_B; heads := heads slow_B;
     latency := fun r => if decide (r = B) then 200000000 else 0;
     destroyed := [] |}.


(** The groups obtained by enrolling [A], [B] and [C] in this order. *)
Definition group_A : ReaderList :=
  addReader_discrete getFlowConfigInfo A 1 [].
Definition group_AB : ReaderList :=
  addReader_discrete getFlowConfigInfo B 1 group_A.
Definition group_ABC : ReaderList :=
  addReader_discrete getFlowConfigInfo C 1 group_AB.
Definition group_B : ReaderList :=
  addReader_discrete getFlowConfigInfo B 1 [].

(** The world once the grain of [B] has arrived. *)
Definition slow_B_arrived : World :=
  snd (waitForGrain B 10 1 deadline slow_B).

Definition entry (r : FlowReader) (delay : Z) : ListEntry :=
  {| reader := r; minValidSlices := 1; variant := Discrete;
     grainRate := one_per_second; maxObservedSourceDelay := delay |}.

End Scenario.

(** ** mxl-gst-looping-filesrc: the looping file player

    The parts of [LoopingFilePlayer] that compute: the validation of the
    negotiated video caps, the choice of decoder pads, the re-stamping of
    buffer timestamps, the check on consecutive grain indices and the copy
    of audio samples into the slices of a continuous flow. GStreamer, the
    MXL writer and the clock are outside; what they return is an argument. *)

Module LoopingFilePlayer.
Import Int IndexConversion.

(** *** [open]: the video caps (lines 448 to 481) *)

(** What [open] does with the negotiated video caps. *)
Inductive VideoCaps : Type :=
  | InvalidSize           (* "Invalid width or height in caps" *)
  | NoFramerate           (* "Failed to get framerate from caps" *)
  | InvalidFramerate      (* "Invalid framerate in caps {}/{}" *)
  | VariableFramerate     (* "... potentially signals that the video stream is VFR ..." *)
  | VideoRate (videoGrainRate : mxlRational).

(** [framerate] is what [gst_structure_get_fraction] stores in [fps_n] and
    [fps_d] when it succeeds; when it fails the call returns [FALSE]. *)
Definition check_video_caps (width height : Z) (framerate : option (Z * Z)) : VideoCaps :=
  if (width <=? 0) || (height <=? 0) then InvalidSize
  else
    match framerate with
    | None => NoFramerate
    | Some (fps_n, fps_d) =>
        if (fps_n <=? 0) || (fps_d <=? 0) then InvalidFramerate
        else if (fps_n =? 0) && (fps_d =? 1) then VariableFramerate
        else VideoRate {| numerator := fps_n; denominator := fps_d |}
    end.

(** *** [cb_pad_added]: the choice of decoder pads (lines 180 to 277) *)

(** The two app sinks of the player: [None] is the null pointer, [Some e]
    the element [e]. *)
Record Sinks : Type := {
  appSinkVideo : option nat;
  appSinkAudio : option nat
}.

(** [g_str_has_prefix (name, prefix)] *)
Definition g_str_has_prefix (name prefix : String.string) : bool :=
  String.prefix prefix name.

(** One call of [cb_pad_added] for a pad whose caps are named [name];
    [made] is what [gst_element_factory_make ("appsink", ...)] returns if
    it is called. The result is the sinks afterwards and [padDiscarded]. *)
Definition cb_pad_added (name : String.string) (made : option nat) (self : Sinks)
    : Sinks * bool :=
  if bool_decide (appSinkVideo self = None) && g_str_has_prefix name "video/"%string then
    ({| appSinkVideo := made; appSinkAudio := appSinkAudio self |}, false)
  else if bool_decide (appSinkAudio self = None) && g_str_has_prefix name "audio/"%string then
    ({| appSinkVideo := appSinkVideo self; appSinkAudio := made |}, false)
  else (self, true).

(** The sinks after the decoder has announced a sequence of pads. *)
Fixpoint pads_added (pads : list (String.string * option nat)) (self : Sinks) : Sinks :=
  match pads with
  | [] => self
  | (name, made) :: rest => pads_added rest (fst (cb_pad_added name made self))
  end.

(** *** [videoThread] and [audioThread]: buffer timestamps
        (lines 767 to 775 and 846 to 854) *)



(** *** [videoThread] and [audioThread]: consecutive grain indices
        (lines 777 to 786 and 856 to 865) *)

(** The new value of [lastVideoGrainIndex] (or [lastAudioGrainIndex]) and
    whether "skipped grain index" is logged, for the index of the buffer
    at hand. Both are [uint64_t]. *)
Definition note_grain_index (lastGrainIndex grainIndex : Z) : Z * bool :=
  let lastGrainIndex := grainIndex in
  if lastGrainIndex =? 0 then (grainIndex, false)
  else if negb (grainIndex =? to_uint64 (lastGrainIndex + 1)) then (lastGrainIndex, true)
  else (lastGrainIndex, false).

(** *** [audioThread]: the copy into the slices (lines 879 to 892) *)

(** One fragment of [payloadBuffersSlices.base.fragments]: the address
    [pointer] and the length [size] in bytes. *)
Record Fragment : Type := { pointer : Z; size : Z }.

(** One [::memcpy (dst, src, n)]; [src] is the offset into [map_info.data]. *)
Record Memcpy : Type := { dst : Z; src : Z; n : Z }.

(** The inner loop over the fragments, for channel [chan]: the copies made
    and [offset] afterwards. [offset] is a [std::uintptr_t]. *)
Fixpoint copy_fragments (chan stride : Z) (fragments : list Fragment) (offset : Z)
    : list Memcpy * Z :=
  match fragments with
  | [] => ([], offset)
  | fragment :: rest =>
      if size fragment >? 0 then
        let '(copies, offset') :=
          copy_fragments chan stride rest (to_uint64 (offset + size fragment)) in
        ({| dst := pointer fragment + chan * stride; src := offset; n := size fragment |}
           :: copies, offset')
      else copy_fragments chan stride rest offset
  end.

(** The outer loop, with [todo] channels left from channel [chan] on. *)
Fixpoint copy_channels (todo : nat) (chan stride : Z) (fragments : list Fragment)
    (offset : Z) : list Memcpy * Z :=
  match todo with
  | O => ([], offset)
  | S todo =>
      let '(copies, offset) := copy_fragments chan stride fragments offset in
      let '(more, offset) := copy_channels todo (chan + 1) stride fragments offset in
      (copies ++ more, offset)
  end.

(** [for (chan = 0; chan < count; ++chan) for (fragment : fragments) ...]
    with [offset] starting at 0. *)
Definition copy_samples (count stride : Z) (fragments : list Fragment) : list Memcpy * Z :=
  copy_channels (Z.to_nat count) 0 stride fragments 0.

(** The copies read the source front to back: each starts where the one
    before it ended. *)
Fixpoint reads_consecutively (offset : Z) (copies : list Memcpy) : Prop :=
  match copies with
  | [] => True
  | c :: rest => src c = offset /\ reads_consecutively (offset + n c) rest
  end.

(** The bytes of the fragments of one channel. *)
Definition fragments_size (fragments : list Fragment) : Z :=
  foldr (fun f acc => (if size f >? 0 then size f else 0) + acc) 0 fragments.

(** The bytes that a sequence of copies moves. *)
Definition bytes_copied (copies : list Memcpy) : Z :=
  foldr (fun c acc => n c + acc) 0 copies.

End LoopingFilePlayer.

(** * Properties *)

(** ** Fixed-width integers *)

Module IntFacts.
Import Int.

Lemma to_uint64_small z : in_uint64 z -> to_uint64 z = z.
Proof. unfold in_uint64, to_uint64. intros H. apply Z.mod_small. lia. Qed.

Lemma to_int64_small z : in_int64 z -> to_int64 z = z.
Proof.
  unfold in_int64, to_int64. intros H.
  rewrite Z.mod_small by lia. lia.
Qed.

Lemma to_int128_small z : in_int128 z -> to_int128 z = z.
Proof.
  unfold in_int128, to_int128. intros H.
  rewrite Z.mod_small by lia. lia.
Qed.

Lemma to_int64_range z : in_int64 (to_int64 z).
Proof.
  unfold in_int64, to_int64.
  pose proof (Z.mod_pos_bound (z + 2 ^ 63) (2 ^ 64)). lia.
Qed.

(** Truncating and flooring division agree as soon as the floor is not
    negative. *)
Lemma quot_floor_nonneg a b : b <> 0 -> 0 <= a / b -> Z.quot a b = a / b.
Proof.
  intros Hb Hq.
  destruct (Z_lt_le_dec 0 b) as [Hpos | Hneg].
  - assert (0 <= a).
    { pose proof (Z.mul_div_le a b Hpos). nia. }
    apply Z.quot_div_nonneg; lia.
  - assert (Hb' : b < 0) by lia.
    assert (a <= 0).
    { pose proof (Z.mul_div_ge a b Hb'). nia. }
    rewrite <- (Z.quot_opp_opp a b) by lia.
    rewrite Z.quot_div_nonneg by lia.
    apply Z.div_opp_opp. lia.
Qed.

(** The magnitude of a truncated quotient is at most that of the dividend. *)
Lemma quot_abs_le a b : Z.abs (Z.quot a b) <= Z.abs a.
Proof.
  destruct (Z.eq_dec b 0) as [-> | Hb].
  - destruct a; cbv [Z.quot Z.quotrem fst]; simpl; lia.
  - rewrite <- Z.quot_abs by assumption.
    assert (0 < Z.abs b) by lia.
    apply Z.quot_le_upper_bound; nia.
Qed.

Lemma ceil_div_spec a b :
  0 < b -> (ceil_div a b - 1) * b < a <= ceil_div a b * b.
Proof.
  intros Hb. unfold ceil_div.
  pose proof (Z.div_mod (- a) b ltac:(lia)).
  pose proof (Z.mod_pos_bound (- a) b Hb). nia.
Qed.

End IntFacts.

(** ** Index conversion *)

Module IndexConversionFacts.
Import Int IntFacts IndexConversion.

Lemma rate_guard_true (r : mxlRational) :
  numerator r <> 0 -> denominator r <> 0 ->
  negb (denominator r =? 0) && negb (numerator r =? 0) = true.
Proof.
  intros Hn Hd.
  apply Z.eqb_neq in Hn. apply Z.eqb_neq in Hd.
  rewrite Hn, Hd. reflexivity.
Qed.

Lemma rate_guard_false (r : mxlRational) :
  numerator r = 0 \/ denominator r = 0 ->
  negb (denominator r =? 0) && negb (numerator r =? 0) = false.
Proof.
  intros [H | H]; rewrite H; simpl.
  - apply andb_false_r.
  - reflexivity.
Qed.

(** The product of two 64-bit values fits in 128 bits with room to spare. *)
Lemma mul_int64_bound a b :
  in_int64 a -> in_int64 b -> - 2 ^ 126 < a * b <= 2 ^ 126.
Proof. unfold in_int64. intros Ha Hb. nia. Qed.

(** With a valid rate [timestampToIndex] never overflows its 128-bit
    intermediates: it is the truncated quotient, reduced modulo 2^64. *)
Lemma timestampToIndex_quot (r : mxlRational) (t : Z) :
  rational_wf r -> in_int64 t ->
  numerator r <> 0 -> denominator r <> 0 ->
  timestampToIndex r {| value := t |} =
  to_uint64 (Z.quot (t * numerator r + 500000000 * denominator r)
                    (1000000000 * denominator r)).
Proof.
  intros [Hn Hd] Ht Hn0 Hd0.
  unfold timestampToIndex. rewrite rate_guard_true by assumption.
  cbn [value]. unfold div128, add128, mul128.
  pose proof (mul_int64_bound _ _ Ht Hn) as Htn.
  assert (Hd5 : - 2 ^ 93 < 500000000 * denominator r < 2 ^ 93)
    by (unfold in_int64 in Hd; lia).
  assert (Hd1 : - 2 ^ 93 < 1000000000 * denominator r < 2 ^ 93)
    by (unfold in_int64 in Hd; lia).
  rewrite (to_int128_small (t * numerator r)) by (unfold in_int128; lia).
  rewrite (to_int128_small (500000000 * denominator r)) by (unfold in_int128; lia).
  rewrite (to_int128_small (1000000000 * denominator r)) by (unfold in_int128; lia).
  rewrite (to_int128_small (t * numerator r + 500000000 * denominator r))
    by (unfold in_int128; lia).
  rewrite to_int128_small; [reflexivity |].
  pose proof (quot_abs_le (t * numerator r + 500000000 * denominator r)
                          (1000000000 * denominator r)).
  unfold in_int128. lia.
Qed.

(** [indexToTimestamp] is the truncated quotient, reduced to 64 bits, as
    long as the dividend fits in 128 bits. *)
Lemma indexToTimestamp_quot (r : mxlRational) (index : Z) :
  rational_wf r -> in_uint64 index ->
  numerator r <> 0 -> denominator r <> 0 ->
  Z.abs (index * denominator r * 1000000000) < 2 ^ 127 ->
  Z.abs (index * denominator r * 1000000000 + Z.quot (numerator r) 2) < 2 ^ 127 ->
  value (indexToTimestamp r index) =
  to_int64 (Z.quot (index * denominator r * 1000000000 + Z.quot (numerator r) 2)
                   (numerator r)).
Proof.
  intros [Hn Hd] Hi Hn0 Hd0 Hprod Hsum.
  unfold indexToTimestamp. rewrite rate_guard_true by assumption.
  cbn [value]. unfold div128, add128, mul128.
  assert (Hid : - 2 ^ 127 < index * denominator r < 2 ^ 127)
    by (unfold in_int64 in Hd; unfold in_uint64 in Hi; nia).
  pose proof (quot_abs_le (numerator r) 2) as Hhalf.
  rewrite (to_int128_small (index * denominator r)) by (unfold in_int128; lia).
  rewrite (to_int128_small (index * denominator r * 1000000000))
    by (unfold in_int128; lia).
  rewrite (to_int128_small (Z.quot (numerator r) 2))
    by (unfold in_int128; unfold in_int64 in Hn; lia).
  rewrite (to_int128_small (index * denominator r * 1000000000 + Z.quot (numerator r) 2))
    by (unfold in_int128; lia).
  rewrite to_int128_small; [reflexivity |].
  pose proof (quot_abs_le (index * denominator r * 1000000000 + Z.quot (numerator r) 2)
                          (numerator r)).
  unfold in_int128. lia.
Qed.

(** [timestampToIndex] cannot overflow: whatever 64-bit values the rate
    and the timestamp hold, every [__int128_t] operation of lines 16 and
    17 has a result that [__int128_t] holds. *)
Lemma timestampToIndex_always_in_range (r : mxlRational) (t : Timepoint) :
  rational_wf r -> in_int64 (value t) -> timestampToIndex_in_range r t.
Proof.
  intros [Hn Hd] Ht _ _.
  pose proof (mul_int64_bound _ _ Ht Hn) as Htn.
  pose proof (quot_abs_le (value t * numerator r + 500000000 * denominator r)
                          (1000000000 * denominator r)) as Hq.
  unfold in_int64 in Hd. unfold in_int128. repeat split; lia.
Qed.

(** [indexToTimestamp] can: at one grain per 10^15 seconds, index 10^15
    has the dividend 10^39, and [__int128_t] ends below 2 * 10^38. *)
Example indexToTimestamp_out_of_range :
  let slow := {| numerator := 1; denominator := 10 ^ 15 |} in
  rational_wf slow /\ in_uint64 (10 ^ 15) /\
  not (indexToTimestamp_in_range slow (10 ^ 15)).
Proof.
  cbv zeta. unfold rational_wf, in_int64, in_uint64, indexToTimestamp_in_range, in_int128.
  cbn [numerator denominator].
  split; [lia |]. split; [lia |].
  intros H. destruct H as (_ & H & _); lia.
Qed.

(** *** Sanity checks on concrete inputs *)

Example timestampToIndex_ntsc_1s :
  timestampToIndex NTSC {| value := 1000000000 |} = 30.
Proof. reflexivity. Qed.

Example indexToTimestamp_ntsc_30 :
  value (indexToTimestamp NTSC 30) = 1001000000.
Proof. reflexivity. Qed.

Example timestampToIndex_25fps :
  timestampToIndex {| numerator := 25; denominator := 1 |} {| value := 4019999999 |} = 100.
Proof. reflexivity. Qed.

Example timestampToIndex_before_epoch :
  timestampToIndex {| numerator := 1; denominator := 1 |} {| value := -600000000 |} = 0.
Proof. reflexivity. Qed.

(** *** A rate with a zero term *)

(** C3. When the numerator or the denominator of the edit rate is zero,
    [timestampToIndex] returns [MXL_UNDEFINED_INDEX], which is 2^64 - 1,
    and [indexToTimestamp] returns the zero timepoint, whatever the
    timestamp and the index are. *)
Theorem zero_term_rate_conversions (r : mxlRational) (t : Timepoint) (index : Z) :
  numerator r = 0 \/ denominator r = 0 ->
  timestampToIndex r t = MXL_UNDEFINED_INDEX /\
  MXL_UNDEFINED_INDEX = 2 ^ 64 - 1 /\
  indexToTimestamp r index = Timepoint_zero /\
  value Timepoint_zero = 0.
Proof.
  intros H. unfold timestampToIndex, indexToTimestamp.
  rewrite (rate_guard_false r H). repeat split.
Qed.

Lemma zero_term_rate_conversions_witness :
  timestampToIndex {| numerator := 0; denominator := 1001 |} {| value := 1000000000 |}
    = MXL_UNDEFINED_INDEX /\
  MXL_UNDEFINED_INDEX = 2 ^ 64 - 1 /\
  indexToTimestamp {| numerator := 0; denominator := 1001 |} 30 = Timepoint_zero /\
  value Timepoint_zero = 0.
Proof.
  apply (zero_term_rate_conversions
           {| numerator := 0; denominator := 1001 |} {| value := 1000000000 |} 30).
  left. reflexivity.
Defined.

(** *** The closed formulas *)

(** The floor formulas of the data model do not describe the code on the
    whole 64-bit range. Before the epoch the C++ division truncates toward
    zero: at one grain per second, 0.6 s before the epoch,
    -100000000 / 1000000000 is 0, while the floor is -1 (and -1 reduced
    modulo 2^64 is 2^64 - 1). An index beyond 64 bits is reduced modulo
    2^64 (10^12 grains per second at 2^62 ns). The timestamp of a large
    index does not fit in 64 bits (index 10^10 at one grain per second),
    and with a negative denominator the truncation shows again. *)
Lemma floor_formulas_fail :
  let one := {| numerator := 1; denominator := 1 |} in
  let fast := {| numerator := 10 ^ 12; denominator := 1 |} in
  let backwards := {| numerator := 2; denominator := -1 |} in
  (rational_wf one /\ in_int64 (-600000000) /\
   timestampToIndex one {| value := -600000000 |} = 0 /\
   spec_timestampToIndex one (-600000000) = -1 /\
   timestampToIndex one {| value := -600000000 |}
     <> spec_timestampToIndex one (-600000000) /\
   timestampToIndex one {| value := -600000000 |}
     <> to_uint64 (spec_timestampToIndex one (-600000000))) /\
  (rational_wf fast /\ in_int64 (2 ^ 62) /\
   timestampToIndex fast {| value := 2 ^ 62 |} = 0 /\
   spec_timestampToIndex fast (2 ^ 62) = 1000 * 2 ^ 62 /\
   timestampToIndex fast {| value := 2 ^ 62 |} <> spec_timestampToIndex fast (2 ^ 62)) /\
  (in_uint64 (10 ^ 10) /\
   value (indexToTimestamp one (10 ^ 10)) = 10 ^ 19 - 2 ^ 64 /\
   spec_indexToTimestamp one (10 ^ 10) = 10 ^ 19 /\
   value (indexToTimestamp one (10 ^ 10)) <> spec_indexToTimestamp one (10 ^ 10)) /\
  (rational_wf backwards /\ in_uint64 1 /\
   value (indexToTimestamp backwards 1) = -499999999 /\
   spec_indexToTimestamp backwards 1 = -500000000 /\
   value (indexToTimestamp backwards 1) <> spec_indexToTimestamp backwards 1).
Proof.
  cbv zeta. unfold rational_wf, in_int64, in_uint64.
  cbn [numerator denominator value].
  repeat split; try lia; try reflexivity; vm_compute; discriminate.
Qed.

(** The floor formula for [timestampToIndex] holds wherever the floor is
    an index. *)
Lemma timestampToIndex_floor (r : mxlRational) (t : Z) :
  rational_wf r -> numerator r <> 0 -> denominator r <> 0 -> in_int64 t ->
  0 <= spec_timestampToIndex r t < 2 ^ 64 ->
  timestampToIndex r {| value := t |} = spec_timestampToIndex r t.
Proof.
  intros Hwf Hn0 Hd0 Ht Hrange.
  rewrite timestampToIndex_quot by assumption.
  unfold spec_timestampToIndex in *.
  rewrite quot_floor_nonneg by lia.
  apply to_uint64_small. exact Hrange.
Qed.

(** The floor formula for [indexToTimestamp] holds wherever the floor is a
    timepoint after the epoch. *)
Lemma indexToTimestamp_floor (r : mxlRational) (index : Z) :
  rational_wf r -> 0 < numerator r -> denominator r <> 0 -> in_uint64 index ->
  0 <= spec_indexToTimestamp r index < 2 ^ 63 ->
  value (indexToTimestamp r index) = spec_indexToTimestamp r index.
Proof.
  intros Hwf Hpos Hd0 Hi Hrange. unfold spec_indexToTimestamp in *.
  assert (Hn0 : numerator r <> 0) by lia.
  assert (Hhalf : Z.quot (numerator r) 2 = numerator r / 2)
    by (apply Z.quot_div_nonneg; lia).
  set (N := index * denominator r * 1000000000 + numerator r / 2) in *.
  assert (HN : 0 <= N < 2 ^ 63 * numerator r).
  { pose proof (Z.div_mod N (numerator r) Hn0) as Hdm.
    pose proof (Z.mod_pos_bound N (numerator r) Hpos) as Hm.
    nia. }
  assert (Hh : 0 <= numerator r / 2 <= numerator r).
  { pose proof (Z.div_mod (numerator r) 2 ltac:(lia)).
    pose proof (Z.mod_pos_bound (numerator r) 2 ltac:(lia)). lia. }
  pose proof Hwf as [Hn Hd]. unfold in_int64 in Hn.
  assert (HN' : N < 2 ^ 126) by nia.
  rewrite indexToTimestamp_quot; try assumption.
  - rewrite Hhalf. fold N.
    rewrite quot_floor_nonneg by lia.
    apply to_int64_small. unfold in_int64. lia.
  - subst N. lia.
  - rewrite Hhalf. fold N. lia.
Qed.

(** C2, amended. For an edit rate whose numerator and denominator are both
    nonzero and a signed 64-bit timestamp [t], [timestampToIndex] is the
    quotient of [t * num + 5 * 10^8 * den] by [10^9 * den] rounded toward
    zero and reduced modulo 2^64; it is the floor of that quotient whenever
    the floor lies in [0, 2^64). For a positive numerator and a 64-bit
    index, [indexToTimestamp] is
    [floor ((index * den * 10^9 + num / 2) / num)] whenever that floor lies
    in [0, 2^63). No 128-bit intermediate overflows in these cases. *)
Theorem conversion_formulas (r : mxlRational) (t index : Z) :
  rational_wf r -> numerator r <> 0 -> denominator r <> 0 ->
  in_int64 t -> in_uint64 index ->
  timestampToIndex r {| value := t |} =
    to_uint64 (Z.quot (t * numerator r + 500000000 * denominator r)
                      (1000000000 * denominator r)) /\
  (0 <= spec_timestampToIndex r t < 2 ^ 64 ->
   timestampToIndex r {| value := t |} = spec_timestampToIndex r t) /\
  (0 < numerator r -> 0 <= spec_indexToTimestamp r index < 2 ^ 63 ->
   value (indexToTimestamp r index) = spec_indexToTimestamp r index).
Proof.
  intros Hwf Hn0 Hd0 Ht Hi. split; [| split].
  - apply timestampToIndex_quot; assumption.
  - apply timestampToIndex_floor; assumption.
  - intros Hpos. apply indexToTimestamp_floor; assumption.
Qed.

Lemma conversion_formulas_witness :
  timestampToIndex NTSC {| value := 1000000000 |} =
    to_uint64 (Z.quot (1000000000 * numerator NTSC + 500000000 * denominator NTSC)
                      (1000000000 * denominator NTSC)) /\
  timestampToIndex NTSC {| value := 1000000000 |} = spec_timestampToIndex NTSC 1000000000 /\
  value (indexToTimestamp NTSC 30) = spec_indexToTimestamp NTSC 30.
Proof.
  destruct (conversion_formulas NTSC 1000000000 30) as (H1 & H2 & H3);
    try (unfold rational_wf, in_int64, in_uint64; cbn [numerator denominator NTSC]; lia).
  split; [exact H1 |]. split.
  - apply H2. vm_compute. split; [discriminate | reflexivity].
  - apply H3; vm_compute; [reflexivity | split; [discriminate | reflexivity]].
Defined.

(** *** Round trip from a timestamp *)

(** The round trip through the index leaves the half-period bound in three
    ways: before the epoch, where the division truncates toward zero (0.6 s
    before the epoch at one grain per second comes back as 0); at the top
    of the 64-bit range, where the timestamp of the index no longer fits
    (2^63 - 1 ns comes back negative); and where the index itself exceeds
    64 bits (10^12 grains per second at 2^62 ns). *)
Lemma round_trip_bound_fails :
  let one := {| numerator := 1; denominator := 1 |} in
  let fast := {| numerator := 10 ^ 12; denominator := 1 |} in
  let round_trip r t :=
    value (indexToTimestamp r (timestampToIndex r {| value := t |})) in
  (in_int64 (-600000000) /\ round_trip one (-600000000) = 0 /\
   half_period one = 500000000 /\
   ~ Z.abs (round_trip one (-600000000) - (-600000000)) <= half_period one) /\
  (in_int64 (2 ^ 63 - 1) /\
   ~ Z.abs (round_trip one (2 ^ 63 - 1) - (2 ^ 63 - 1)) <= half_period one) /\
  (in_int64 (2 ^ 62) /\
   ~ Z.abs (round_trip fast (2 ^ 62) - 2 ^ 62) <= half_period fast).
Proof.
  cbv zeta. unfold in_int64.
  repeat split; try lia; try reflexivity; vm_compute; intros H; apply H; reflexivity.
Qed.

(** C1, amended. For an edit rate with positive numerator and denominator
    and a signed 64-bit timepoint [t] with [0 <= t * num + 5 * 10^8 * den]
    (every [t >= 0] in particular), whose index
    [floor ((t * num + 5 * 10^8 * den) / (10^9 * den))] is below 2^64 and
    for which [t + ceil (10^9 * den / (2 * num))] is below 2^63,
    [indexToTimestamp r (timestampToIndex r t)] differs from [t] by at most
    [ceil (10^9 * den / (2 * num))] nanoseconds. *)
Theorem round_trip_error_bound (r : mxlRational) (t : Z) :
  rational_wf r -> 0 < numerator r -> 0 < denominator r ->
  in_int64 t ->
  0 <= t * numerator r + 500000000 * denominator r ->
  spec_timestampToIndex r t < 2 ^ 64 ->
  t + half_period r < 2 ^ 63 ->
  Z.abs (value (indexToTimestamp r (timestampToIndex r {| value := t |})) - t)
    <= half_period r.
Proof.
  intros Hwf Hn Hd Ht Hnum Hidx Htop.
  pose proof (ceil_div_spec (1000000000 * denominator r) (2 * numerator r)
                ltac:(lia)) as Hc.
  fold (half_period r) in Hc.
  set (c := half_period r) in *.
  (* the index *)
  assert (Hi0 : 0 <= spec_timestampToIndex r t).
  { unfold spec_timestampToIndex. apply Z.div_pos; lia. }
  rewrite timestampToIndex_floor by (assumption || lia).
  assert (Hdm1 : 0 <= t * numerator r + 500000000 * denominator r
                      - 1000000000 * denominator r * spec_timestampToIndex r t
                   < 1000000000 * denominator r).
  { unfold spec_timestampToIndex.
    pose proof (Z.div_mod (t * numerator r + 500000000 * denominator r)
                  (1000000000 * denominator r) ltac:(lia)).
    pose proof (Z.mod_pos_bound (t * numerator r + 500000000 * denominator r)
                  (1000000000 * denominator r) ltac:(lia)).
    lia. }
  set (idx := spec_timestampToIndex r t) in *.
  (* the timestamp of the index *)
  assert (Hh : 0 <= numerator r - 2 * (numerator r / 2) < 2).
  { pose proof (Z.div_mod (numerator r) 2 ltac:(lia)).
    pose proof (Z.mod_pos_bound (numerator r) 2 ltac:(lia)). lia. }
  assert (Hdm2 : 0 <= idx * denominator r * 1000000000 + numerator r / 2
                      - numerator r * spec_indexToTimestamp r idx
                   < numerator r).
  { unfold spec_indexToTimestamp.
    pose proof (Z.div_mod (idx * denominator r * 1000000000 + numerator r / 2)
                  (numerator r) ltac:(lia)).
    pose proof (Z.mod_pos_bound (idx * denominator r * 1000000000 + numerator r / 2)
                  (numerator r) ltac:(lia)).
    lia. }
  assert (Hts0 : 0 <= spec_indexToTimestamp r idx).
  { unfold spec_indexToTimestamp. apply Z.div_pos; [| lia].
    assert (0 <= idx * denominator r) by nia. lia. }
  set (ts := spec_indexToTimestamp r idx) in *.
  assert (Hup : numerator r * (2 * (ts - t - c) - 1) <= 0) by lia.
  assert (Hlo : 0 < numerator r * (ts - t + c + 1)) by lia.
  assert (Hbound : - c <= ts - t <= c) by nia.
  assert (Hidx64 : in_uint64 idx) by (unfold in_uint64; lia).
  assert (Hts63 : 0 <= ts < 2 ^ 63) by lia.
  rewrite (indexToTimestamp_floor r idx Hwf Hn ltac:(lia) Hidx64 Hts63).
  fold ts. lia.
Qed.

Lemma round_trip_error_bound_witness :
  Z.abs (value (indexToTimestamp NTSC (timestampToIndex NTSC {| value := 1000000000 |}))
         - 1000000000) <= half_period NTSC.
Proof.
  apply (round_trip_error_bound NTSC 1000000000);
    unfold rational_wf, in_int64; cbn [numerator denominator NTSC];
    try lia; vm_compute; first [reflexivity | discriminate].
Defined.

(** *** NTSC *)

Lemma Timepoint_eta (t : Timepoint) : t = {| value := value t |}.
Proof. destruct t. reflexivity. Qed.

(** At 30000/1001 the timestamp of index 30 is 1.001 s: it lies outside
    the interval [999966666, 1000000000] ns. *)
Lemma ntsc_index_30_not_in_interval :
  timestampToIndex NTSC {| value := 1000000000 |} = 30 /\
  value (indexToTimestamp NTSC 30) = 1001000000 /\
  ~ (999966666 <= value (indexToTimestamp NTSC 30) <= 1000000000).
Proof.
  split; [reflexivity |]. split; [reflexivity |].
  change (value (indexToTimestamp NTSC 30)) with 1001000000. lia.
Qed.

(** C4, amended. With the edit rate 30000/1001, the timestamp
    1000000000 ns has index 30, the timestamp of index 30 is
    1001000000 ns, and every index from 0 to 10^6 is recovered from its
    timestamp. *)
Theorem ntsc_round_trip :
  timestampToIndex NTSC {| value := 1000000000 |} = 30 /\
  value (indexToTimestamp NTSC 30) = 1001000000 /\
  forall index : Z,
    0 <= index <= 10 ^ 6 ->
    timestampToIndex NTSC (indexToTimestamp NTSC index) = index.
Proof.
  split; [reflexivity |]. split; [reflexivity |].
  intros index Hi.
  assert (Hwf : rational_wf NTSC) by (unfold rational_wf, in_int64; simpl; lia).
  assert (Hts : value (indexToTimestamp NTSC index) = spec_indexToTimestamp NTSC index
                /\ 0 <= 30000 * spec_indexToTimestamp NTSC index
                        - (index * 1001000000000 + 15000) + 30000 <= 30000
                /\ 30000 * spec_indexToTimestamp NTSC index
                     < index * 1001000000000 + 15000 + 1).
  { assert (Hdm : 0 <= (index * 1001 * 1000000000 + 15000)
                       - 30000 * spec_indexToTimestamp NTSC index < 30000).
    { unfold spec_indexToTimestamp. cbn [numerator denominator NTSC].
      change (30000 / 2) with 15000.
      pose proof (Z.div_mod (index * 1001 * 1000000000 + 15000) 30000 ltac:(lia)).
      pose proof (Z.mod_pos_bound (index * 1001 * 1000000000 + 15000) 30000 ltac:(lia)).
      lia. }
    split; [| lia].
    apply indexToTimestamp_floor; try assumption;
      unfold in_uint64; cbn [numerator denominator NTSC]; lia. }
  destruct Hts as (Hv & Hlo & Hhi).
  rewrite (Timepoint_eta (indexToTimestamp NTSC index)), Hv.
  set (ts := spec_indexToTimestamp NTSC index) in *.
  assert (Hidx : spec_timestampToIndex NTSC ts = index).
  { unfold spec_timestampToIndex. cbn [numerator denominator NTSC].
    symmetry. apply (Z.div_unique _ _ index
        (ts * 30000 + 500000000 * 1001 - 1000000000 * 1001 * index)); lia. }
  assert (Hrange : in_int64 ts) by (unfold in_int64; lia).
  rewrite timestampToIndex_floor; try assumption; try discriminate; lia.
Qed.

Lemma ntsc_round_trip_witness :
  timestampToIndex NTSC (indexToTimestamp NTSC 1000000) = 1000000.
Proof.
  destruct ntsc_round_trip as (_ & _ & H). apply (H 1000000). lia.
Defined.

End IndexConversionFacts.

(** ** The synchronization group *)

Module FlowSynchronizationGroupFacts.
Import Int IntFacts IndexConversion FlowSynchronizationGroup.

(** *** Enrollment *)

Section Enrollment.

Variable getFlowConfigInfo : FlowReader -> mxlRational.

Local Abbreviation addReader_discrete := (addReader_discrete getFlowConfigInfo).
Local Abbreviation addReader_continuous := (addReader_continuous getFlowConfigInfo).
Local Abbreviation ListEntry_discrete := (ListEntry_discrete getFlowConfigInfo).
Local Abbreviation ListEntry_continuous := (ListEntry_continuous getFlowConfigInfo).

(** The first entry of an enrolled reader splits the list. *)
Lemma enrolled_split (r : FlowReader) (l : ReaderList) :
  r ∈ readers l ->
  exists l1 e l2, l = l1 ++ e :: l2 /\ reader e = r /\ r ∉ readers l1.
Proof.
  unfold readers. induction l as [| e l IH]; intros Hin.
  - inversion Hin.
  - destruct (decide (reader e = r)) as [Heq | Hne].
    + exists [], e, l. repeat split; [assumption | apply not_elem_of_nil].
    + rewrite fmap_cons in Hin. apply elem_of_cons in Hin as [Hin | Hin];
        [congruence |].
      destruct (IH Hin) as (l1 & e0 & l2 & -> & Hr & Hnot).
      exists (e :: l1), e0, l2. repeat split; [assumption |].
      rewrite fmap_cons. intros [?|?]%elem_of_cons; [congruence | auto].
Qed.

Lemma addReader_discrete_at (r : FlowReader) (m : Z) (l1 l2 : ReaderList) (e : ListEntry) :
  reader e = r -> r ∉ readers l1 ->
  addReader_discrete r m (l1 ++ e :: l2) = l1 ++ set_minValidSlices m e :: l2.
Proof.
  unfold readers. intros He. induction l1 as [| e1 l1 IH]; intros Hnot; simpl.
  - rewrite decide_True by assumption. reflexivity.
  - rewrite fmap_cons in Hnot. apply not_elem_of_cons in Hnot as [Hne Hnot].
    rewrite decide_False by congruence. rewrite IH by assumption. reflexivity.
Qed.

Lemma addReader_discrete_new (r : FlowReader) (m : Z) (l : ReaderList) :
  r ∉ readers l -> addReader_discrete r m l = l ++ [ListEntry_discrete r m].
Proof.
  unfold readers. induction l as [| e l IH]; intros Hnot; simpl.
  - reflexivity.
  - rewrite fmap_cons in Hnot. apply not_elem_of_cons in Hnot as [Hne Hnot].
    rewrite decide_False by congruence. rewrite IH by assumption. reflexivity.
Qed.

Lemma addReader_continuous_enrolled (r : FlowReader) (l : ReaderList) :
  r ∈ readers l -> addReader_continuous r l = l.
Proof.
  unfold readers. induction l as [| e l IH]; intros Hin; simpl.
  - inversion Hin.
  - destruct (decide (reader e = r)) as [Heq | Hne]; [reflexivity |].
    rewrite fmap_cons in Hin. apply elem_of_cons in Hin as [Hin | Hin];
      [congruence |].
    rewrite IH by assumption. reflexivity.
Qed.

Lemma addReader_continuous_new (r : FlowReader) (l : ReaderList) :
  r ∉ readers l -> addReader_continuous r l = l ++ [ListEntry_continuous r].
Proof.
  unfold readers. induction l as [| e l IH]; intros Hnot; simpl.
  - reflexivity.
  - rewrite fmap_cons in Hnot. apply not_elem_of_cons in Hnot as [Hne Hnot].
    rewrite decide_False by congruence. rewrite IH by assumption. reflexivity.
Qed.

Lemma removeReader_at (r : FlowReader) (l1 l2 : ReaderList) (e : ListEntry) :
  reader e = r -> r ∉ readers l1 ->
  removeReader r (l1 ++ e :: l2) = l1 ++ l2.
Proof.
  unfold readers. intros He. induction l1 as [| e1 l1 IH]; intros Hnot; simpl.
  - rewrite decide_True by assumption. reflexivity.
  - rewrite fmap_cons in Hnot. apply not_elem_of_cons in Hnot as [Hne Hnot].
    rewrite decide_False by congruence. rewrite IH by assumption. reflexivity.
Qed.

Lemma removeReader_absent (r : FlowReader) (l : ReaderList) :
  r ∉ readers l -> removeReader r l = l.
Proof.
  unfold readers. induction l as [| e l IH]; intros Hnot; simpl.
  - reflexivity.
  - rewrite fmap_cons in Hnot. apply not_elem_of_cons in Hnot as [Hne Hnot].
    rewrite decide_False by congruence. rewrite IH by assumption. reflexivity.
Qed.

Lemma readers_addReader_discrete (r : FlowReader) (m : Z) (l : ReaderList) :
  readers (addReader_discrete r m l) =
  if decide (r ∈ readers l) then readers l else readers l ++ [r].
Proof.
  destruct (decide (r ∈ readers l)) as [Hin | Hnot].
  - destruct (enrolled_split r l Hin) as (l1 & e & l2 & -> & He & Hnot).
    rewrite addReader_discrete_at by assumption.
    unfold readers. rewrite !fmap_app, !fmap_cons. reflexivity.
  - rewrite addReader_discrete_new by assumption.
    unfold readers. rewrite fmap_app. reflexivity.
Qed.

Lemma readers_addReader_continuous (r : FlowReader) (l : ReaderList) :
  readers (addReader_continuous r l) =
  if decide (r ∈ readers l) then readers l else readers l ++ [r].
Proof.
  destruct (decide (r ∈ readers l)) as [Hin | Hnot].
  - rewrite addReader_continuous_enrolled by assumption. reflexivity.
  - rewrite addReader_continuous_new by assumption.
    unfold readers. rewrite fmap_app. reflexivity.
Qed.

(** C8. [addReader] is idempotent by reader identity. For a reader that
    is already enrolled, the discrete [addReader] changes nothing but the
    [minValidSlices] of its entry and adds no entry, and the continuous
    [addReader] leaves the group as it is; [removeReader] removes the entry
    of the reader when there is one and leaves the group as it is
    otherwise. *)
Theorem enrollment_by_identity (r : FlowReader) (m : Z) (l : ReaderList) :
  (r ∈ readers l ->
   (exists l1 e e' l2,
      l = l1 ++ e :: l2 /\ addReader_discrete r m l = l1 ++ e' :: l2 /\
      reader e = r /\ (r ∉ readers l1) /\
      minValidSlices e' = m /\ reader e' = reader e /\ variant e' = variant e /\
      grainRate e' = grainRate e /\
      maxObservedSourceDelay e' = maxObservedSourceDelay e) /\
   readers (addReader_discrete r m l) = readers l /\
   addReader_continuous r l = l /\
   (exists l1 e l2,
      l = l1 ++ e :: l2 /\ reader e = r /\ (r ∉ readers l1) /\
      removeReader r l = l1 ++ l2)) /\
  (r ∉ readers l -> removeReader r l = l) /\
  addReader_discrete r m (addReader_discrete r m l) = addReader_discrete r m l /\
  addReader_continuous r (addReader_continuous r l) = addReader_continuous r l.
Proof.
  split; [| split; [| split]].
  - intros Hin.
    destruct (enrolled_split r l Hin) as (l1 & e & l2 & Hl & He & Hnot).
    split; [| split; [| split]].
    + exists l1, e, (set_minValidSlices m e), l2. subst l.
      rewrite addReader_discrete_at by assumption. repeat split; assumption.
    + rewrite readers_addReader_discrete. rewrite decide_True by assumption.
      reflexivity.
    + apply addReader_continuous_enrolled. assumption.
    + exists l1, e, l2. subst l.
      rewrite removeReader_at by assumption. repeat split; assumption.
  - apply removeReader_absent.
  - destruct (decide (r ∈ readers l)) as [Hin | Hnot].
    + destruct (enrolled_split r l Hin) as (l1 & e & l2 & -> & He & Hnot).
      rewrite addReader_discrete_at by assumption.
      rewrite addReader_discrete_at by assumption. reflexivity.
    + rewrite (addReader_discrete_new r m l) by assumption.
      rewrite addReader_discrete_at by (assumption || reflexivity).
      reflexivity.
  - apply addReader_continuous_enrolled.
    rewrite readers_addReader_continuous.
    destruct (decide (r ∈ readers l)); [assumption |].
    apply elem_of_app. right. apply list_elem_of_singleton. reflexivity.
Qed.

(** *** Entries after an enrollment operation *)

Lemma elem_of_addReader_discrete (r : FlowReader) (m : Z) (l : ReaderList) (e' : ListEntry) :
  e' ∈ addReader_discrete r m l ->
  e' ∈ l \/ (exists e, e ∈ l /\ e' = set_minValidSlices m e) \/
  e' = ListEntry_discrete r m.
Proof.
  destruct (decide (r ∈ readers l)) as [Hin | Hnot].
  - destruct (enrolled_split r l Hin) as (l1 & e & l2 & -> & He & Hnot).
    rewrite addReader_discrete_at by assumption.
    rewrite !elem_of_app, !elem_of_cons.
    intros [H | [-> | H]]; auto.
    right. left. exists e. split; [| reflexivity].
    apply elem_of_app. right. apply elem_of_cons. left. reflexivity.
  - rewrite addReader_discrete_new by assumption.
    rewrite elem_of_app, list_elem_of_singleton. intros [H | ->]; auto.
Qed.

Lemma elem_of_addReader_continuous (r : FlowReader) (l : ReaderList) (e' : ListEntry) :
  e' ∈ addReader_continuous r l -> e' ∈ l \/ e' = ListEntry_continuous r.
Proof.
  destruct (decide (r ∈ readers l)) as [Hin | Hnot].
  - rewrite addReader_continuous_enrolled by assumption. auto.
  - rewrite addReader_continuous_new by assumption.
    rewrite elem_of_app, list_elem_of_singleton. intros [H | ->]; auto.
Qed.

Lemma elem_of_removeReader (r : FlowReader) (l : ReaderList) (e' : ListEntry) :
  e' ∈ removeReader r l -> e' ∈ l.
Proof.
  induction l as [| e l IH]; simpl; [auto |].
  destruct (decide (reader e = r)).
  - intros H. apply elem_of_cons. right. assumption.
  - rewrite !elem_of_cons. intros [-> | H]; auto.
Qed.

Lemma NoDup_addReader_discrete (r : FlowReader) (m : Z) (l : ReaderList) :
  NoDup (readers l) -> NoDup (readers (addReader_discrete r m l)).
Proof.
  intros Hnd. rewrite readers_addReader_discrete.
  destruct (decide (r ∈ readers l)) as [Hin | Hnot]; [assumption |].
  apply NoDup_app. split; [assumption |]. split.
  - intros x Hx ->%list_elem_of_singleton. contradiction.
  - apply NoDup_singleton.
Qed.

Lemma NoDup_addReader_continuous (r : FlowReader) (l : ReaderList) :
  NoDup (readers l) -> NoDup (readers (addReader_continuous r l)).
Proof.
  intros Hnd. rewrite readers_addReader_continuous.
  destruct (decide (r ∈ readers l)) as [Hin | Hnot]; [assumption |].
  apply NoDup_app. split; [assumption |]. split.
  - intros x Hx ->%list_elem_of_singleton. contradiction.
  - apply NoDup_singleton.
Qed.

Lemma removeReader_NoDup (r : FlowReader) (l : ReaderList) :
  NoDup (readers l) ->
  NoDup (readers (removeReader r l)) /\ r ∉ readers (removeReader r l).
Proof.
  destruct (decide (r ∈ readers l)) as [Hin | Hnot].
  - destruct (enrolled_split r l Hin) as (l1 & e & l2 & -> & He & Hnot).
    rewrite removeReader_at by assumption.
    unfold readers in *. rewrite !fmap_app, fmap_cons.
    intros Hnd. apply NoDup_app in Hnd as (Hnd1 & Hdisj & Hnd2).
    apply NoDup_cons in Hnd2 as [Hfresh Hnd2]. split.
    + apply NoDup_app. split; [assumption |]. split; [| assumption].
      intros x Hx1 Hx2. apply (Hdisj x Hx1). apply elem_of_cons. right. assumption.
    + rewrite He in Hfresh. intros [H | H]%elem_of_app; contradiction.
  - rewrite removeReader_absent by assumption. auto.
Qed.

(** The cached delay of a reader through [addReader] and [removeReader]. *)
Lemma delay_of_addReader_discrete (r r0 : FlowReader) (m : Z) (l : ReaderList) :
  delay_of r (addReader_discrete r0 m l) =
  match delay_of r l with
  | Some d => Some d
  | None => if decide (r0 = r) then Some 0 else None
  end.
Proof.
  induction l as [| e l IH]; simpl.
  - destruct (decide (r0 = r)); reflexivity.
  - destruct (decide (reader e = r0)) as [He0 | He0]; simpl.
    + destruct (decide (reader e = r)); [reflexivity |].
      destruct (delay_of r l); [reflexivity |].
      rewrite decide_False by congruence. reflexivity.
    + destruct (decide (reader e = r)); [reflexivity | exact IH].
Qed.

Lemma delay_of_addReader_continuous (r r0 : FlowReader) (l : ReaderList) :
  delay_of r (addReader_continuous r0 l) =
  match delay_of r l with
  | Some d => Some d
  | None => if decide (r0 = r) then Some 0 else None
  end.
Proof.
  induction l as [| e l IH]; simpl.
  - destruct (decide (r0 = r)); reflexivity.
  - destruct (decide (reader e = r0)) as [He0 | He0]; simpl.
    + destruct (decide (reader e = r)); [reflexivity |].
      destruct (delay_of r l); [reflexivity |].
      rewrite decide_False by congruence. reflexivity.
    + destruct (decide (reader e = r)); [reflexivity | exact IH].
Qed.

Lemma delay_of_removeReader_ne (r r0 : FlowReader) (l : ReaderList) :
  r <> r0 -> delay_of r (removeReader r0 l) = delay_of r l.
Proof.
  intros Hne. induction l as [| e l IH]; simpl; [reflexivity |].
  destruct (decide (reader e = r0)) as [He0 | He0]; simpl.
  - rewrite decide_False by congruence. reflexivity.
  - destruct (decide (reader e = r)); [reflexivity | exact IH].
Qed.

End Enrollment.


(** *** The splice *)

Lemma splice_after_before_begin_Some (l l' : ReaderList) (it : nat) :
  splice_after_before_begin l it = Some l' ->
  exists moved,
    l !! S it = Some moved /\
    l' = moved :: take (S it) l ++ drop (S (S it)) l.
Proof.
  unfold splice_after_before_begin.
  destruct (l !! S it) as [moved |]; [| discriminate].
  intros [= <-]. exists moved. split; reflexivity.
Qed.

(** The call is undefined exactly when [it] is the last node (or beyond). *)
Lemma splice_after_before_begin_None (l : ReaderList) (it : nat) :
  splice_after_before_begin l it = None <-> (length l <= S it)%nat.
Proof.
  unfold splice_after_before_begin.
  destruct (l !! S it) as [moved |] eqn:Hnext.
  - apply lookup_lt_Some in Hnext. split; [discriminate | lia].
  - apply lookup_ge_None in Hnext. split; [intros _; exact Hnext | reflexivity].
Qed.

Lemma splice_after_before_begin_Permutation (l l' : ReaderList) (it : nat) :
  splice_after_before_begin l it = Some l' -> l' ≡ₚ l.
Proof.
  intros (moved & Hm & ->)%splice_after_before_begin_Some.
  rewrite Permutation_middle. rewrite take_drop_middle by assumption.
  reflexivity.
Qed.

(** The node the call moves is the one at position [S it]. *)
Lemma splice_after_before_begin_successor (l : ReaderList) (it : nat) :
  splice_after_before_begin l it = move_to_front l (S it).
Proof. reflexivity. Qed.

(** Unless the entry after [it] equals the entry at [it], the call does
    not bring the entry at [it] to the front. *)
Lemma splice_after_before_begin_not_current (l : ReaderList) (it : nat)
    (current next : ListEntry) :
  l !! it = Some current -> l !! S it = Some next -> current <> next ->
  splice_after_before_begin l it <> move_to_front l it.
Proof.
  intros Hcur Hnext Hne. unfold splice_after_before_begin, move_to_front.
  rewrite Hcur, Hnext. intros [= Hhead _]. congruence.
Qed.

Lemma elem_of_insert_inv {X : Type} (l : list X) (i : nat) (x y : X) :
  y ∈ <[i:=x]> l -> y = x \/ y ∈ l.
Proof.
  revert i. induction l as [| a l IH]; intros i Hy.
  - inversion Hy.
  - destruct i as [| i]; simpl in Hy.
    + apply elem_of_cons in Hy as [-> | Hy]; [left; reflexivity |].
      right. apply elem_of_cons. right. assumption.
    + apply elem_of_cons in Hy as [-> | Hy].
      * right. apply elem_of_cons. left. reflexivity.
      * destruct (IH i Hy) as [-> | Hin]; [left; reflexivity |].
        right. apply elem_of_cons. right. assumption.
Qed.

(** *** The cached delay of a reader *)

Lemma delay_of_Some_elem (r : FlowReader) (l : ReaderList) (d : Z) :
  delay_of r l = Some d ->
  exists e, e ∈ l /\ reader e = r /\ maxObservedSourceDelay e = d.
Proof.
  induction l as [| e l IH]; simpl; [discriminate |].
  destruct (decide (reader e = r)) as [He | He].
  - intros [= <-]. exists e. split; [apply elem_of_cons; auto | auto].
  - intros (e0 & Hin & H)%IH. exists e0. split; [apply elem_of_cons; auto | auto].
Qed.

Lemma delay_of_None (r : FlowReader) (l : ReaderList) :
  delay_of r l = None <-> r ∉ readers l.
Proof.
  unfold readers. induction l as [| e l IH]; simpl.
  - split; [intros _; apply not_elem_of_nil | reflexivity].
  - rewrite not_elem_of_cons.
    destruct (decide (reader e = r)) as [He | He].
    + split; [discriminate | intros [Hne _]; congruence].
    + rewrite IH. split; [auto | intros [_ H]; exact H].
Qed.

Lemma delay_of_elem_NoDup (l : ReaderList) (e : ListEntry) :
  NoDup (readers l) -> e ∈ l ->
  delay_of (reader e) l = Some (maxObservedSourceDelay e).
Proof.
  unfold readers. induction l as [| e0 l IH]; intros Hnd Hin.
  - inversion Hin.
  - rewrite fmap_cons in Hnd. apply NoDup_cons in Hnd as [Hfresh Hnd]. simpl.
    apply elem_of_cons in Hin as [-> | Hin].
    + rewrite decide_True by reflexivity. reflexivity.
    + rewrite decide_False; [apply IH; assumption |].
      intros Heq. apply Hfresh. rewrite Heq.
      apply list_elem_of_fmap_2. assumption.
Qed.

(** *** Growing lists *)

Lemma delay_grown_refl (e : ListEntry) : delay_grown e e.
Proof. unfold delay_grown. repeat split; lia. Qed.

Lemma delay_grown_trans (e1 e2 e3 : ListEntry) :
  delay_grown e1 e2 -> delay_grown e2 e3 -> delay_grown e1 e3.
Proof.
  unfold delay_grown. intros (? & ? & ? & ? & ?) (? & ? & ? & ? & ?).
  repeat split; try congruence; lia.
Qed.

Lemma grows_refl (l : ReaderList) : grows l l.
Proof.
  split; [reflexivity |]. intros e' He'. exists e'.
  split; [assumption | apply delay_grown_refl].
Qed.

Lemma grows_trans (l1 l2 l3 : ReaderList) :
  grows l1 l2 -> grows l2 l3 -> grows l1 l3.
Proof.
  intros [Hp12 H12] [Hp23 H23]. split; [etransitivity; eassumption |].
  intros e3 (e2 & He2 & Hg23)%H23.
  destruct (H12 e2 He2) as (e1 & He1 & Hg12).
  exists e1. split; [assumption | eapply delay_grown_trans; eassumption].
Qed.

Lemma grows_insert (l : ReaderList) (it : nat) (current : ListEntry) (d : Z) :
  l !! it = Some current -> maxObservedSourceDelay current <= d ->
  grows l (<[it := set_maxObservedSourceDelay d current]> l).
Proof.
  intros Hcur Hd. split.
  - unfold readers. rewrite list_fmap_insert. simpl.
    rewrite list_insert_id; [reflexivity |].
    rewrite list_lookup_fmap, Hcur. reflexivity.
  - intros e' [-> | Hin]%elem_of_insert_inv.
    + exists current. split; [eapply list_elem_of_lookup_2; eassumption |].
      unfold delay_grown. simpl. repeat split; assumption.
    + exists e'. split; [assumption | apply delay_grown_refl].
Qed.

Lemma grows_Permutation (l l' : ReaderList) : l' ≡ₚ l -> grows l l'.
Proof.
  intros Hp. split.
  - unfold readers. rewrite Hp. reflexivity.
  - intros e' He'. exists e'. split; [| apply delay_grown_refl].
    rewrite <- Hp. assumption.
Qed.

Lemma recorded_grows (l l' : ReaderList) (it it' : nat) (current : ListEntry) (d : Z) :
  l !! it = Some current -> maxObservedSourceDelay current <= d ->
  recorded l it current d l' it' -> grows l l'.
Proof.
  intros Hcur Hd [[-> _] | [Hs _]].
  - apply grows_insert; assumption.
  - eapply grows_trans; [apply grows_insert; eassumption |].
    apply grows_Permutation. eapply splice_after_before_begin_Permutation.
    eassumption.
Qed.

Lemma grows_NoDup (l l' : ReaderList) :
  grows l l' -> NoDup (readers l) -> NoDup (readers l').
Proof. intros [Hp _] Hnd. rewrite Hp. assumption. Qed.

Lemma grows_delay_of (l l' : ReaderList) (r : FlowReader) (d d' : Z) :
  NoDup (readers l) -> grows l l' ->
  delay_of r l = Some d -> delay_of r l' = Some d' -> d <= d'.
Proof.
  intros Hnd [_ Hg] Hd (e' & He' & Hr' & <-)%delay_of_Some_elem.
  destruct (Hg e' He') as (e & He & Hr & _ & _ & _ & Hle).
  pose proof (delay_of_elem_NoDup l e Hnd He) as Hde.
  rewrite <- Hr, Hr' in Hde. congruence.
Qed.

(** *** One pass through the loop body *)

Section Wait.

Variable getFlowConfigInfo : FlowReader -> mxlRational.
Variable World : Type.
Variable alive : World -> FlowReader -> bool.
Variable getFlowRuntimeInfo : FlowReader -> World -> Z * World.
Variable waitForGrain : FlowReader -> Z -> Z -> Timepoint -> World -> mxlStatus * World.
Variable waitForSamples : FlowReader -> Z -> Timepoint -> World -> mxlStatus * World.
Variable currentTime : World -> Timepoint * World.

Local Abbreviation wait_on := (wait_on World waitForGrain waitForSamples).
Local Abbreviation records_delay :=
  (records_delay World getFlowRuntimeInfo waitForGrain waitForSamples currentTime).
Local Abbreviation record_source_delay := (record_source_delay World currentTime).
Local Abbreviation waitForDataAt_body :=
  (waitForDataAt_body World alive getFlowRuntimeInfo waitForGrain waitForSamples
     currentTime).
Local Abbreviation waitForDataAt_loop :=
  (waitForDataAt_loop World alive getFlowRuntimeInfo waitForGrain waitForSamples
     currentTime).
Local Abbreviation waitForDataAt :=
  (waitForDataAt World alive getFlowRuntimeInfo waitForGrain waitForSamples
     currentTime).
Local Abbreviation group_step :=
  (group_step getFlowConfigInfo World alive getFlowRuntimeInfo waitForGrain
     waitForSamples currentTime).
Local Abbreviation reachable :=
  (reachable getFlowConfigInfo World alive getFlowRuntimeInfo waitForGrain
     waitForSamples currentTime).
Local Abbreviation steps_enrolled :=
  (steps_enrolled getFlowConfigInfo World alive getFlowRuntimeInfo waitForGrain
     waitForSamples currentTime).

Lemma record_source_delay_Continue (l l' : ReaderList) (cur it' : nat)
    (current : ListEntry) (expectedIndex : Z) (w w' : World) :
  record_source_delay l cur current expectedIndex w = Continue l' it' w' ->
  (l' = l /\ it' = S cur) \/
  exists currentTaiTime sourceDelay,
    currentTime w = (currentTaiTime, w') /\
    value currentTaiTime > value (indexToTimestamp (grainRate current) expectedIndex) /\
    sourceDelay = to_int64 (value currentTaiTime
                            - value (indexToTimestamp (grainRate current) expectedIndex)) /\
    maxObservedSourceDelay current < sourceDelay /\
    recorded l cur current sourceDelay l' it'.
Proof.
  unfold record_source_delay, recorded.
  destruct (currentTime w) as [currentTaiTime w3].
  destruct (value currentTaiTime >? _) eqn:Hlate; [| intros [= <- <- <-]; auto].
  destruct (to_int64 _ >? maxObservedSourceDelay current) eqn:Hmore;
    [| intros [= <- <- <-]; auto].
  apply Z.gtb_lt in Hlate, Hmore.
  destruct (<[cur:=_]> l !! 0%nat) as [begin |]; [| discriminate].
  intros Hstep. right. eexists currentTaiTime, _.
  assert (Hrec : w' = w3 /\
                 recorded l cur current
                   (to_int64 (value currentTaiTime
                      - value (indexToTimestamp (grainRate current) expectedIndex)))
                   l' it').
  { unfold recorded.
    destruct (_ >? maxObservedSourceDelay begin).
    - destruct (splice_after_before_begin _ cur) as [l2 |] eqn:Hs; [| discriminate].
      injection Hstep as Hl Hit Hw. subst l' it' w'.
      split; [reflexivity |]. right. split; reflexivity.
    - injection Hstep as Hl Hit Hw. subst l' it' w'.
      split; [reflexivity |]. left. split; reflexivity. }
  destruct Hrec as [-> Hrec].
  split; [reflexivity |]. split; [lia |]. split; [reflexivity |].
  split; [exact Hmore | exact Hrec].
Qed.

Lemma record_source_delay_no_Return (l l' : ReaderList) (cur : nat)
    (current : ListEntry) (expectedIndex : Z) (w w' : World) (s : mxlStatus) :
  record_source_delay l cur current expectedIndex w <> Return s l' w'.
Proof.
  unfold record_source_delay.
  repeat case_match; discriminate.
Qed.

(** A pass that goes on to the next iteration either left the list alone
    or recorded a larger delay for the entry it visited. *)
Lemma waitForDataAt_body_Continue (originTime deadline : Timepoint)
    (l l' : ReaderList) (it it' : nat) (w w' : World) :
  waitForDataAt_body originTime deadline l it w = Continue l' it' w' ->
  exists current,
    l !! it = Some current /\
    ((l' = l /\ it' = S it) \/
     exists sourceDelay,
       records_delay originTime deadline current w sourceDelay /\
       maxObservedSourceDelay current < sourceDelay /\
       recorded l it current sourceDelay l' it').
Proof.
  unfold waitForDataAt_body.
  destruct (l !! it) as [current |] eqn:Hcur; [| discriminate].
  intros Hstep. exists current. split; [reflexivity |].
  destruct (alive w (reader current)); simpl in Hstep; [| discriminate].
  destruct (getFlowRuntimeInfo (reader current) w) as [headIndex w1] eqn:Hinfo.
  destruct (_ >? headIndex) eqn:Hbehind; [| injection Hstep as <- <- <-; auto].
  destruct (alive w1 (reader current)); simpl in Hstep; [| discriminate].
  destruct (wait_on current _ deadline w1) as [result w2] eqn:Hwait.
  destruct (decide (result = MXL_STATUS_OK)) as [-> | Hne]; [| discriminate].
  apply record_source_delay_Continue in Hstep
    as [? | (currentTaiTime & sourceDelay & Htime & Hlate & Hsd & Hmore & Hrec)];
    [auto |].
  right. exists sourceDelay. split; [| split; assumption].
  exists headIndex, w1, w2, currentTaiTime, w'.
  apply Z.gtb_lt in Hbehind.
  repeat split; try assumption; lia.
Qed.

(** A pass that returns leaves the list alone; the status is
    [MXL_STATUS_OK] at the end of the list and otherwise the status, other
    than [MXL_STATUS_OK], that the wait on the visited entry returned. *)
Lemma waitForDataAt_body_Return (originTime deadline : Timepoint)
    (l l' : ReaderList) (it : nat) (w w' : World) (s : mxlStatus) :
  waitForDataAt_body originTime deadline l it w = Return s l' w' ->
  l' = l /\
  ((s = MXL_STATUS_OK /\ l !! it = None /\ w' = w) \/
   exists current headIndex w1,
     l !! it = Some current /\
     getFlowRuntimeInfo (reader current) w = (headIndex, w1) /\
     timestampToIndex (grainRate current) originTime > headIndex /\
     wait_on current (timestampToIndex (grainRate current) originTime) deadline w1
       = (s, w') /\
     s <> MXL_STATUS_OK).
Proof.
  unfold waitForDataAt_body.
  destruct (l !! it) as [current |] eqn:Hcur;
    [| intros [= <- <- <-]; split; [reflexivity | left; auto]].
  destruct (alive w (reader current)); simpl; [| discriminate].
  destruct (getFlowRuntimeInfo (reader current) w) as [headIndex w1] eqn:Hinfo.
  destruct (_ >? headIndex) eqn:Hbehind; [| discriminate].
  destruct (alive w1 (reader current)); simpl; [| discriminate].
  destruct (wait_on current _ deadline w1) as [result w2] eqn:Hwait.
  destruct (decide (result = MXL_STATUS_OK)) as [-> | Hne].
  - intros Hstep. exfalso. exact (record_source_delay_no_Return _ _ _ _ _ _ _ _ Hstep).
  - intros [= <- <- <-]. split; [reflexivity |]. right.
    exists current, headIndex, w1. apply Z.gtb_lt in Hbehind.
    repeat split; try assumption; lia.
Qed.


(** *** The whole loop *)

Lemma waitForDataAt_body_grows (originTime deadline : Timepoint)
    (l l' : ReaderList) (it it' : nat) (w w' : World) :
  waitForDataAt_body originTime deadline l it w = Continue l' it' w' ->
  grows l l'.
Proof.
  intros (current & Hcur & [[-> _] | (d & _ & Hd & Hrec)])%waitForDataAt_body_Continue.
  - apply grows_refl.
  - eapply recorded_grows; [eassumption | | eassumption]. lia.
Qed.

Lemma waitForDataAt_loop_grows (fuel : nat) (originTime deadline : Timepoint)
    (l l' : ReaderList) (it : nat) (w w' : World) (s : mxlStatus) :
  waitForDataAt_loop fuel originTime deadline l it w = Returns s l' w' ->
  grows l l'.
Proof.
  revert l it w. induction fuel as [| fuel IH]; intros l it w; simpl;
    [discriminate |].
  destruct (waitForDataAt_body originTime deadline l it w)
    as [l1 it1 w1 | s1 l1 w1 |] eqn:Hbody; [| | discriminate].
  - intros Hloop. eapply grows_trans; [| eapply IH; eassumption].
    eapply waitForDataAt_body_grows; eassumption.
  - intros [= <- <- <-].
    apply waitForDataAt_body_Return in Hbody as [-> _]. apply grows_refl.
Qed.


(** *** Calls in which no wait succeeds *)

Local Abbreviation settled_without_delay :=
  (settled_without_delay World alive getFlowRuntimeInfo waitForGrain waitForSamples).
Local Abbreviation spec_waitForDataAt :=
  (spec_waitForDataAt World getFlowRuntimeInfo waitForGrain waitForSamples currentTime).

(** Such a call returns, with enough fuel: [MXL_STATUS_OK] when every flow
    already holds its expected index, and otherwise the status of the
    first failed wait. The list stays as it is. *)
Lemma waitForDataAt_loop_settled (originTime deadline : Timepoint)
    (l : ReaderList) (w w' : World) (s : mxlStatus) (it : nat) :
  settled_without_delay originTime deadline (drop it l) w = Some (s, w') ->
  forall fuel, (length l - it < fuel)%nat ->
    waitForDataAt_loop fuel originTime deadline l it w = Returns s l w'.
Proof.
  remember (length l - it)%nat as n eqn:Hn.
  revert it w Hn. induction n as [| n IH]; intros it w Hn Hsettled fuel Hfuel.
  - destruct fuel as [| fuel]; [lia |]. simpl.
    unfold FlowSynchronizationGroup.waitForDataAt_body.
    rewrite (proj2 (lookup_ge_None l it)) by lia.
    rewrite drop_ge in Hsettled by lia. simpl in Hsettled.
    injection Hsettled as <- <-. reflexivity.
  - destruct fuel as [| fuel]; [lia |]. simpl.
    destruct (l !! it) as [current |] eqn:Hcur;
      [| apply lookup_ge_None in Hcur; lia].
    rewrite (drop_S l current it Hcur) in Hsettled. simpl in Hsettled.
    unfold FlowSynchronizationGroup.waitForDataAt_body. rewrite Hcur.
    destruct (alive w (reader current)); [| discriminate]. simpl.
    destruct (getFlowRuntimeInfo (reader current) w) as [headIndex w1].
    rewrite Z.gtb_ltb, Z.ltb_antisym.
    destruct (_ <=? headIndex); simpl.
    + apply IH; [lia | assumption | lia].
    + destruct (alive w1 (reader current)); [| discriminate]. simpl.
      destruct (FlowSynchronizationGroup.wait_on _ _ _ _ _ _ _) as [result w2].
      destruct (decide (result = MXL_STATUS_OK)); [discriminate |].
      injection Hsettled as <- <-. reflexivity.
Qed.

(** On these calls the loop returns the status of the contract. *)
Lemma settled_without_delay_spec (originTime deadline : Timepoint)
    (todo : ReaderList) (w w' : World) (s : mxlStatus) :
  settled_without_delay originTime deadline todo w = Some (s, w') ->
  spec_waitForDataAt originTime deadline todo w = (s, w').
Proof.
  revert w. induction todo as [| current rest IH]; intros w; simpl.
  - intros [= <- <-]. reflexivity.
  - destruct (alive w (reader current)); [| discriminate].
    destruct (getFlowRuntimeInfo (reader current) w) as [headIndex w1].
    destruct (_ <=? headIndex); [apply IH |].
    destruct (alive w1 (reader current)); [| discriminate].
    destruct (FlowSynchronizationGroup.wait_on _ _ _ _ _ _ _) as [result w2].
    destruct (decide (result = MXL_STATUS_OK)); [discriminate |].
    intros [= <- <-]. reflexivity.
Qed.

(** *** Groups built by the operations *)

Lemma group_step_NoDup (l l' : ReaderList) :
  group_step l l' -> NoDup (readers l) -> NoDup (readers l').
Proof.
  intros [r m l0 | r l0 | r l0 | fuel o d l0 w s l1 w' Hrun] Hnd.
  - apply NoDup_addReader_discrete. assumption.
  - apply NoDup_addReader_continuous. assumption.
  - apply removeReader_NoDup. assumption.
  - eapply grows_NoDup; [| eassumption].
    eapply waitForDataAt_loop_grows. exact Hrun.
Qed.

Lemma reachable_NoDup (l : ReaderList) : reachable l -> NoDup (readers l).
Proof.
  induction 1 as [| l l' _ IH Hstep].
  - apply NoDup_nil_2.
  - eapply group_step_NoDup; eassumption.
Qed.

Lemma group_step_nonneg (l l' : ReaderList) :
  group_step l l' ->
  (forall e, e ∈ l -> 0 <= maxObservedSourceDelay e) ->
  forall e', e' ∈ l' -> 0 <= maxObservedSourceDelay e'.
Proof.
  intros [r m l0 | r l0 | r l0 | fuel o d l0 w s l1 w' Hrun] Hpos e' He'.
  - apply elem_of_addReader_discrete in He' as [H | [(e & He & ->) | ->]].
    + apply Hpos. assumption.
    + simpl. apply Hpos. assumption.
    + simpl. lia.
  - apply elem_of_addReader_continuous in He' as [H | ->].
    + apply Hpos. assumption.
    + simpl. lia.
  - apply Hpos. eapply elem_of_removeReader. eassumption.
  - apply waitForDataAt_loop_grows in Hrun as [_ Hg].
    destruct (Hg e' He') as (e & He & _ & _ & _ & _ & Hle).
    specialize (Hpos e He). lia.
Qed.

Lemma reachable_nonneg (l : ReaderList) (e : ListEntry) :
  reachable l -> e ∈ l -> 0 <= maxObservedSourceDelay e.
Proof.
  intros Hreach. revert e. induction Hreach as [| l l' _ IH Hstep].
  - intros e He. inversion He.
  - eapply group_step_nonneg; eassumption.
Qed.

(** One operation never lowers the delay cached for a reader that is
    enrolled before and after it. *)
Lemma group_step_delay_of (l l' : ReaderList) (r : FlowReader) (d d' : Z) :
  NoDup (readers l) -> group_step l l' ->
  delay_of r l = Some d -> delay_of r l' = Some d' -> d <= d'.
Proof.
  intros Hnd Hstep. revert Hnd.
  destruct Hstep as [r0 m l0 | r0 l0 | r0 l0 | fuel o dl l0 w s l1 w' Hrun];
    intros Hnd Hd Hd'.
  - rewrite delay_of_addReader_discrete, Hd in Hd'. injection Hd' as <-. lia.
  - rewrite delay_of_addReader_continuous, Hd in Hd'. injection Hd' as <-. lia.
  - destruct (decide (r = r0)) as [-> | Hne].
    + destruct (removeReader_NoDup r0 l0 Hnd) as [_ Hgone].
      apply delay_of_None in Hgone. congruence.
    + rewrite delay_of_removeReader_ne in Hd' by assumption.
      assert (d = d') by congruence. lia.
  - eapply grows_delay_of; [exact Hnd | | exact Hd | exact Hd'].
    eapply waitForDataAt_loop_grows. exact Hrun.
Qed.

Lemma steps_enrolled_reachable (r : FlowReader) (l l' : ReaderList) :
  steps_enrolled r l l' -> reachable l -> reachable l'.
Proof.
  induction 1 as [| l l' l'' _ IH Hstep _]; [auto |].
  intros Hreach. eapply reachable_step; [apply IH; assumption | assumption].
Qed.

Lemma steps_enrolled_delay_of (r : FlowReader) (l l' : ReaderList) (d : Z) :
  reachable l -> steps_enrolled r l l' -> delay_of r l = Some d ->
  exists d', delay_of r l' = Some d' /\ d <= d'.
Proof.
  intros Hreach Hsteps Hd.
  induction Hsteps as [| l l' l'' Hsteps IH Hstep Hin].
  - exists d. split; [assumption | lia].
  - destruct (IH Hreach Hd) as (d1 & Hd1 & Hle).
    destruct (delay_of r l'') as [d2 |] eqn:Hd2.
    + exists d2. split; [reflexivity |].
      assert (d1 <= d2); [| lia].
      eapply group_step_delay_of; [| exact Hstep | exact Hd1 | exact Hd2].
      apply reachable_NoDup. eapply steps_enrolled_reachable; eassumption.
    + apply delay_of_None in Hd2. contradiction.
Qed.

(** *** The observed delay is a running maximum *)

(** C9. The constructors of an entry set [maxObservedSourceDelay] to zero.
    In every group built by [addReader], [removeReader] and
    [waitForDataAt] the field is never negative, and over any sequence of
    these operations during which a reader stays enrolled the value cached
    for it never decreases. [addReader] and [removeReader] leave the value
    of every enrolled reader as it is. A pass of the loop of
    [waitForDataAt] changes at most the entry it visits, and only to a
    strictly larger delay that was observed after a successful wait on that
    entry, at a TAI time strictly after the expected arrival time
    [indexToTimestamp (grainRate, expectedIndex)]. *)
Theorem maxObservedSourceDelay_running_maximum :
  (forall r m,
     maxObservedSourceDelay (ListEntry_discrete getFlowConfigInfo r m) = 0 /\
     maxObservedSourceDelay (ListEntry_continuous getFlowConfigInfo r) = 0) /\
  (forall l e, reachable l -> e ∈ l -> 0 <= maxObservedSourceDelay e) /\
  (forall l l' r d,
     reachable l -> steps_enrolled r l l' -> delay_of r l = Some d ->
     exists d', delay_of r l' = Some d' /\ d <= d') /\
  (forall l r r0 m d,
     delay_of r l = Some d ->
     delay_of r (addReader_discrete getFlowConfigInfo r0 m l) = Some d /\
     delay_of r (addReader_continuous getFlowConfigInfo r0 l) = Some d /\
     (r <> r0 -> delay_of r (removeReader r0 l) = Some d)) /\
  (forall originTime deadline l it w l' it' w' e',
     waitForDataAt_body originTime deadline l it w = Continue l' it' w' ->
     e' ∈ l' ->
     e' ∈ l \/
     exists current sourceDelay,
       l !! it = Some current /\
       e' = set_maxObservedSourceDelay sourceDelay current /\
       maxObservedSourceDelay current < sourceDelay /\
       records_delay originTime deadline current w sourceDelay) /\
  (forall originTime deadline l it w s l' w',
     waitForDataAt_body originTime deadline l it w = Return s l' w' -> l' = l).
Proof.
  split; [| split; [| split; [| split; [| split]]]].
  - intros r m. split; reflexivity.
  - intros l e. apply reachable_nonneg.
  - intros l l' r d. apply steps_enrolled_delay_of.
  - intros l r r0 m d Hd. split; [| split].
    + rewrite delay_of_addReader_discrete, Hd. reflexivity.
    + rewrite delay_of_addReader_continuous, Hd. reflexivity.
    + intros Hne. rewrite delay_of_removeReader_ne by assumption. exact Hd.
  - intros originTime deadline l it w l' it' w' e' Hbody He'.
    apply waitForDataAt_body_Continue in Hbody
      as (current & Hcur & [[-> _] | (d & Hobs & Hd & Hrec)]); [left; assumption |].
    assert (Hin : e' ∈ <[it := set_maxObservedSourceDelay d current]> l).
    { destruct Hrec as [[-> _] | [Hs _]]; [assumption |].
      apply splice_after_before_begin_Permutation in Hs.
      rewrite <- Hs. assumption. }
    apply elem_of_insert_inv in Hin as [-> | Hin]; [| left; assumption].
    right. exists current, d. repeat split; assumption.
  - intros originTime deadline l it w s l' w' Hbody.
    apply waitForDataAt_body_Return in Hbody as [-> _]. reflexivity.
Qed.

(** *** The promotion of the last entry *)

(** A pass that is to promote the last entry of the list, an entry other
    than the head, is undefined: the [splice_after] of line 116 has no node
    to move. *)
Lemma waitForDataAt_body_promotes_last (originTime deadline : Timepoint)
    (l : ReaderList) (it : nat) (w : World) (current begin : ListEntry)
    (sourceDelay : Z) :
  l !! it = Some current -> S it = length l -> it <> 0%nat ->
  l !! 0%nat = Some begin ->
  records_delay originTime deadline current w sourceDelay ->
  maxObservedSourceDelay current < sourceDelay ->
  maxObservedSourceDelay begin < sourceDelay ->
  waitForDataAt_body originTime deadline l it w = UndefinedBehaviour.
Proof.
  intros Hcur Hlast Hnot0 Hbegin
    (headIndex & w1 & w2 & currentTaiTime & w3 & Hinfo & Hbehind & Hwait & Htime
       & Hlate & ->) Hmore Hhead.
  unfold FlowSynchronizationGroup.waitForDataAt_body. rewrite Hcur.
  destruct (alive w (reader current)); simpl; [| reflexivity].
  rewrite Hinfo.
  rewrite (proj2 (Z.gtb_lt _ _)) by lia.
  destruct (alive w1 (reader current)); simpl; [| reflexivity].
  rewrite Hwait.
  destruct (decide (MXL_STATUS_OK = MXL_STATUS_OK)); [| congruence].
  unfold FlowSynchronizationGroup.record_source_delay. rewrite Htime.
  rewrite (proj2 (Z.gtb_lt _ _)) by lia.
  rewrite (proj2 (Z.gtb_lt _ _)) by lia.
  rewrite list_lookup_insert_ne by auto. rewrite Hbegin. simpl.
  rewrite (proj2 (Z.gtb_lt _ _)) by lia.
  rewrite (proj2 (splice_after_before_begin_None _ _))
    by (rewrite length_insert; lia).
  reflexivity.
Qed.

(** *** Destroyed readers *)


End Wait.

(** *** Concrete runs *)

Section Runs.
Import Scenario.

Example groups_in_enrollment_order :
  group_A = [entry A 0] /\
  group_AB = [entry A 0; entry B 0] /\
  group_ABC = [entry A 0; entry B 0; entry C 0].
Proof. repeat split. Qed.

Example expected_index_at_origin :
  timestampToIndex one_per_second originTime = 10 /\
  indexToTimestamp one_per_second 10 = originTime.
Proof. repeat split. Qed.

(** When the grain of [B] takes longer than the deadline allows, the call
    returns the status of the failed wait and leaves the group as it is. *)
Example run_timeout :
  forall fuel,
    run (2 + fuel) originTime deadline group_ABC very_slow_B
    = Returns MXL_ERR_TIMEOUT group_ABC
        (snd (waitForGrain B 10 1 deadline very_slow_B)).
Proof. intros fuel. reflexivity. Qed.

(** Once every flow holds grain 10 nothing is waited for. *)
Example run_all_present :
  forall fuel,
    run (4 + fuel) originTime deadline group_ABC slow_B_arrived
    = Returns MXL_STATUS_OK group_ABC slow_B_arrived.
Proof. intros fuel. reflexivity. Qed.

(** A single slow reader: the delay is recorded and the call returns. *)
Example run_group_B :
  forall fuel,
    run (2 + fuel) originTime deadline group_B slow_B
    = Returns MXL_STATUS_OK [entry B 50000000] slow_B_arrived.
Proof. intros fuel. reflexivity. Qed.

Lemma enrollment_by_identity_witness :
  readers (addReader_discrete getFlowConfigInfo B 4 group_AB) = readers group_AB /\
  addReader_continuous getFlowConfigInfo B group_AB = group_AB /\
  removeReader C group_AB = group_AB.
Proof.
  destruct (enrollment_by_identity getFlowConfigInfo B 4 group_AB) as (Hin & _).
  destruct (enrollment_by_identity getFlowConfigInfo C 4 group_AB) as (_ & Hout & _).
  destruct Hin as (_ & Hreaders & Hcont & _).
  { apply (bool_decide_unpack _). vm_compute. exact I. }
  split; [exact Hreaders |]. split; [exact Hcont |].
  apply Hout. apply (bool_decide_unpack _). vm_compute. exact I.
Defined.

(** **** The promotion on line 116

    [A], [B] and [C] are enrolled in this order; the grain of [B] arrives
    50 ms late, so the wait on [B] succeeds with a source delay of
    50000000 ns, larger than the delay 0 cached for the head [A]. *)

(** C6, at the failing input. The entry of [B] gets the new delay, but the
    call [splice_after (before_begin (), _readers, current)] moves the
    node that follows [B], the entry of [C], to the front: the group ends
    as [C; A; B]. Moving the entry of [B] itself, as the comment on lines
    102 to 105 describes, would give [B; A; C]. *)
Theorem promotion_moves_the_successor :
  (forall fuel,
     run (6 + fuel) originTime deadline group_ABC slow_B
     = Returns MXL_STATUS_OK [entry C 0; entry A 0; entry B 50000000] slow_B_arrived) /\
  splice_after_before_begin [entry A 0; entry B 50000000; entry C 0] 1
    = Some [entry C 0; entry A 0; entry B 50000000] /\
  move_to_front [entry A 0; entry B 50000000; entry C 0] 1
    = Some [entry B 50000000; entry A 0; entry C 0].
Proof. split; [intros fuel; reflexivity | split; reflexivity]. Qed.

(** C5, at the failing input. With only [A] and [B] enrolled, [A] has its
    grain and the wait on [B] succeeds before the deadline: every enrolled
    reader has data at the expected index, and the contract gives the call
    the status [MXL_STATUS_OK]. But the promotion of [B], the last node,
    calls [splice_after] with no node after [current]: the call has
    undefined behaviour and returns nothing. *)
Theorem promotion_of_last_entry_undefined :
  timestampToIndex (grainRate (entry A 0)) originTime <= heads slow_B A /\
  fst (waitForGrain B (timestampToIndex (grainRate (entry B 0)) originTime) 1
         deadline slow_B) = MXL_STATUS_OK /\
  fst (spec_run originTime deadline group_AB slow_B) = MXL_STATUS_OK /\
  (forall fuel, run (2 + fuel) originTime deadline group_AB slow_B = Undefined) /\
  (forall fuel s l' w',
     run fuel originTime deadline group_AB slow_B <> Returns s l' w').
Proof.
  split; [vm_compute; discriminate |].
  split; [reflexivity |]. split; [reflexivity |].
  split; [intros fuel; reflexivity |].
  intros [| [| fuel]] s l' w'; discriminate.
Qed.

(** C10, at the failing input. [addReader] has put [B] behind [A]; the
    pass of the loop that promotes [B] has no node to move: the splice is
    undefined, and no entry is moved to the front. *)
Theorem splice_after_last_entry_undefined :
  addReader_discrete getFlowConfigInfo B 1 [entry A 0] = [entry A 0; entry B 0] /\
  run_body originTime deadline [entry A 0; entry B 0] 1 slow_B = UndefinedBehaviour /\
  splice_after_before_begin [entry A 0; entry B 50000000] 1 = None.
Proof. repeat split. Qed.

(** **** A destroyed reader *)



Lemma slow_B_records_delay :
  records_delay World getFlowRuntimeInfo waitForGrain waitForSamples currentTime
    originTime deadline (entry B 0) slow_B 50000000.
Proof.
  exists 9, slow_B, slow_B_arrived, {| value := 10050000000 |}, slow_B_arrived.
  repeat split.
Qed.


(** **** The running maximum on a concrete run *)

Lemma group_B_reachable :
  reachable getFlowConfigInfo World alive getFlowRuntimeInfo waitForGrain
    waitForSamples currentTime group_B.
Proof.
  eapply reachable_step; [apply reachable_empty |].
  apply (step_addReader_discrete _ _ _ _ _ _ _ B 1 []).
Qed.

Lemma group_B_wait_step :
  group_step getFlowConfigInfo World alive getFlowRuntimeInfo waitForGrain
    waitForSamples currentTime group_B [entry B 50000000].
Proof.
  apply (step_waitForDataAt _ _ _ _ _ _ _ 2%nat originTime deadline group_B slow_B
           MXL_STATUS_OK [entry B 50000000] slow_B_arrived).
  reflexivity.
Qed.

Lemma maxObservedSourceDelay_running_maximum_witness :
  0 <= maxObservedSourceDelay (entry B 50000000) /\
  (exists d', delay_of B [entry B 50000000] = Some d' /\ 0 <= d') /\
  (entry B 50000000 ∈ group_B \/
   exists current sourceDelay,
     group_B !! 0%nat = Some current /\
     entry B 50000000 = set_maxObservedSourceDelay sourceDelay current /\
     maxObservedSourceDelay current < sourceDelay /\
     records_delay World getFlowRuntimeInfo waitForGrain waitForSamples currentTime
       originTime deadline current slow_B sourceDelay).
Proof.
  destruct (maxObservedSourceDelay_running_maximum getFlowConfigInfo World alive
              getFlowRuntimeInfo waitForGrain waitForSamples currentTime)
    as (_ & Hnonneg & Hmono & _ & Hbody & _).
  assert (Hin : entry B 50000000 ∈ [entry B 50000000])
    by (apply elem_of_cons; left; reflexivity).
  split; [| split].
  - apply (Hnonneg [entry B 50000000]); [| exact Hin].
    eapply reachable_step; [exact group_B_reachable | exact group_B_wait_step].
  - apply (Hmono group_B [entry B 50000000] B 0).
    + exact group_B_reachable.
    + eapply steps_enrolled_step;
        [apply steps_enrolled_refl | exact group_B_wait_step |].
      apply elem_of_cons. left. reflexivity.
    + reflexivity.
  - apply (Hbody originTime deadline group_B 0%nat slow_B [entry B 50000000] 1%nat
             slow_B_arrived); [reflexivity | exact Hin].
Defined.

End Runs.

End FlowSynchronizationGroupFacts.

(** ** Index conversion: order, spacing and inverses *)

Module IndexConversionLaws.
Import Int IntFacts IndexConversion IndexConversionFacts.

(** The floor of the data model, as two inequalities. *)
Lemma spec_timestampToIndex_bounds (r : mxlRational) (t : Z) :
  0 < denominator r ->
  1000000000 * denominator r * spec_timestampToIndex r t
    <= t * numerator r + 500000000 * denominator r
    < 1000000000 * denominator r * spec_timestampToIndex r t
      + 1000000000 * denominator r.
Proof.
  intros Hd. unfold spec_timestampToIndex.
  pose proof (Z.div_mod (t * numerator r + 500000000 * denominator r)
                (1000000000 * denominator r) ltac:(lia)).
  pose proof (Z.mod_pos_bound (t * numerator r + 500000000 * denominator r)
                (1000000000 * denominator r) ltac:(lia)).
  lia.
Qed.

Lemma spec_indexToTimestamp_bounds (r : mxlRational) (index : Z) :
  0 < numerator r ->
  numerator r * spec_indexToTimestamp r index
    <= index * denominator r * 1000000000 + numerator r / 2
    < numerator r * spec_indexToTimestamp r index + numerator r.
Proof.
  intros Hn. unfold spec_indexToTimestamp.
  pose proof (Z.div_mod (index * denominator r * 1000000000 + numerator r / 2)
                (numerator r) ltac:(lia)).
  pose proof (Z.mod_pos_bound (index * denominator r * 1000000000 + numerator r / 2)
                (numerator r) ltac:(lia)).
  lia.
Qed.

Lemma half_bounds (n : Z) : 0 < n -> 0 <= n - 2 * (n / 2) < 2.
Proof.
  intros Hn. pose proof (Z.div_mod n 2 ltac:(lia)).
  pose proof (Z.mod_pos_bound n 2 ltac:(lia)). lia.
Qed.

Lemma spec_indexToTimestamp_nonneg (r : mxlRational) (index : Z) :
  0 < numerator r -> 0 < denominator r -> 0 <= index ->
  0 <= spec_indexToTimestamp r index.
Proof.
  intros Hn Hd Hi. unfold spec_indexToTimestamp.
  pose proof (half_bounds (numerator r) Hn).
  apply Z.div_pos; [| lia].
  assert (0 <= index * denominator r) by nia. lia.
Qed.

(** X1. For a rate of at most one grain per nanosecond
    ([0 < num <= 10^9 * den]) every index whose timestamp fits in 63 bits
    is recovered from that timestamp:
    [timestampToIndex r (indexToTimestamp r index) = index]. *)
Theorem index_round_trip (r : mxlRational) (index : Z) :
  rational_wf r -> 0 < numerator r -> 0 < denominator r ->
  numerator r <= 1000000000 * denominator r ->
  in_uint64 index -> spec_indexToTimestamp r index < 2 ^ 63 ->
  timestampToIndex r (indexToTimestamp r index) = index.
Proof.
  intros Hwf Hn Hd Hrate Hi Hfit.
  pose proof (spec_indexToTimestamp_nonneg r index Hn Hd ltac:(unfold in_uint64 in Hi; lia))
    as Hts0.
  pose proof (spec_indexToTimestamp_bounds r index Hn) as Hts.
  pose proof (half_bounds (numerator r) Hn) as Hh.
  rewrite (Timepoint_eta (indexToTimestamp r index)).
  rewrite (indexToTimestamp_floor r index Hwf Hn ltac:(lia) Hi ltac:(lia)).
  set (ts := spec_indexToTimestamp r index) in *.
  assert (Hback : spec_timestampToIndex r ts = index).
  { unfold spec_timestampToIndex. symmetry.
    apply (Z.div_unique _ _ index
             (ts * numerator r + 500000000 * denominator r
              - 1000000000 * denominator r * index)); [| lia].
    left. split; [lia |].
    destruct (Z.eq_dec (numerator r) (1000000000 * denominator r)) as [Heq | Hne].
    - assert (ts <= index) by nia. nia.
    - lia. }
  rewrite timestampToIndex_floor; try assumption; try lia.
  - unfold in_int64. lia.
  - unfold in_uint64 in Hi. lia.
Qed.

Lemma index_round_trip_witness :
  timestampToIndex {| numerator := 48000; denominator := 1 |}
    (indexToTimestamp {| numerator := 48000; denominator := 1 |} 12345678901)
  = 12345678901.
Proof.
  apply (index_round_trip {| numerator := 48000; denominator := 1 |} 12345678901);
    unfold rational_wf, in_int64, in_uint64; cbn [numerator denominator];
    try lia; vm_compute; reflexivity.
Defined.

(** X2. [timestampToIndex] rounds to the nearest index, ties upward: for a
    positive rate and a timestamp at or after half a grain before the
    epoch, the result is [index] exactly when [t * num] lies in
    [[(index - 1/2) * 10^9 * den, (index + 1/2) * 10^9 * den)]. *)
Theorem timestampToIndex_nearest (r : mxlRational) (t index : Z) :
  rational_wf r -> 0 < numerator r -> 0 < denominator r -> in_int64 t ->
  0 <= t * numerator r + 500000000 * denominator r ->
  spec_timestampToIndex r t < 2 ^ 64 ->
  timestampToIndex r {| value := t |} = index <->
  - (500000000 * denominator r)
    <= t * numerator r - index * (1000000000 * denominator r)
    < 500000000 * denominator r.
Proof.
  intros Hwf Hn Hd Ht Hnum Hfit.
  pose proof (spec_timestampToIndex_bounds r t Hd) as Hq.
  assert (Hq0 : 0 <= spec_timestampToIndex r t)
    by (unfold spec_timestampToIndex; apply Z.div_pos; lia).
  rewrite timestampToIndex_floor by (assumption || lia).
  split.
  - intros <-. lia.
  - intros Hnear. nia.
Qed.

Lemma timestampToIndex_nearest_witness :
  timestampToIndex NTSC {| value := 1000000000 |} = 30 <->
  - (500000000 * denominator NTSC)
    <= 1000000000 * numerator NTSC - 30 * (1000000000 * denominator NTSC)
    < 500000000 * denominator NTSC.
Proof.
  apply (timestampToIndex_nearest NTSC 1000000000 30);
    unfold rational_wf, in_int64; cbn [numerator denominator NTSC];
    try lia; vm_compute; reflexivity.
Defined.

(** X3. [timestampToIndex] is monotone: for a positive rate, a later
    timestamp never gets a smaller index (from half a grain before the
    epoch up to where the index leaves 64 bits). *)
Theorem timestampToIndex_monotone (r : mxlRational) (t1 t2 : Z) :
  rational_wf r -> 0 < numerator r -> 0 < denominator r ->
  in_int64 t1 -> in_int64 t2 ->
  0 <= t1 * numerator r + 500000000 * denominator r ->
  spec_timestampToIndex r t2 < 2 ^ 64 ->
  t1 <= t2 ->
  timestampToIndex r {| value := t1 |} <= timestampToIndex r {| value := t2 |}.
Proof.
  intros Hwf Hn Hd Ht1 Ht2 Hnum Hfit Hle.
  assert (Hmono : spec_timestampToIndex r t1 <= spec_timestampToIndex r t2).
  { unfold spec_timestampToIndex. apply Z.div_le_mono; [lia | nia]. }
  assert (Hq0 : 0 <= spec_timestampToIndex r t1)
    by (unfold spec_timestampToIndex; apply Z.div_pos; lia).
  rewrite !timestampToIndex_floor by (assumption || lia). exact Hmono.
Qed.

Lemma timestampToIndex_monotone_witness :
  timestampToIndex NTSC {| value := 1000000000 |}
    <= timestampToIndex NTSC {| value := 1016683333 |}.
Proof.
  apply (timestampToIndex_monotone NTSC 1000000000 1016683333);
    unfold rational_wf, in_int64; cbn [numerator denominator NTSC];
    try lia; vm_compute; reflexivity.
Defined.

(** X4. Consecutive indices are one grain period apart, up to the
    rounding of one nanosecond: for a positive rate,
    [indexToTimestamp r (index + 1) - indexToTimestamp r index] is
    [floor (10^9 * den / num)] or one more. *)
Theorem indexToTimestamp_spacing (r : mxlRational) (index : Z) :
  rational_wf r -> 0 < numerator r -> 0 < denominator r ->
  in_uint64 index -> in_uint64 (index + 1) ->
  spec_indexToTimestamp r (index + 1) < 2 ^ 63 ->
  1000000000 * denominator r / numerator r
    <= value (indexToTimestamp r (index + 1)) - value (indexToTimestamp r index)
    <= 1000000000 * denominator r / numerator r + 1.
Proof.
  intros Hwf Hn Hd Hi Hi1 Hfit.
  unfold in_uint64 in Hi, Hi1.
  pose proof (spec_indexToTimestamp_nonneg r index Hn Hd ltac:(lia)) as H0.
  pose proof (spec_indexToTimestamp_nonneg r (index + 1) Hn Hd ltac:(lia)) as H1.
  pose proof (spec_indexToTimestamp_bounds r index Hn) as Hb0.
  pose proof (spec_indexToTimestamp_bounds r (index + 1) Hn) as Hb1.
  pose proof (Z.div_mod (1000000000 * denominator r) (numerator r) ltac:(lia)) as Hp.
  pose proof (Z.mod_pos_bound (1000000000 * denominator r) (numerator r) Hn) as Hpm.
  assert (Hle : spec_indexToTimestamp r index <= spec_indexToTimestamp r (index + 1)).
  { unfold spec_indexToTimestamp. apply Z.div_le_mono; [lia | nia]. }
  rewrite (indexToTimestamp_floor r (index + 1) Hwf Hn ltac:(lia)
             ltac:(unfold in_uint64; lia) ltac:(lia)).
  rewrite (indexToTimestamp_floor r index Hwf Hn ltac:(lia)
             ltac:(unfold in_uint64; lia) ltac:(lia)).
  set (a := spec_indexToTimestamp r index) in *.
  set (b := spec_indexToTimestamp r (index + 1)) in *.
  set (P := 1000000000 * denominator r / numerator r) in *.
  split; nia.
Qed.

Lemma indexToTimestamp_spacing_witness :
  1000000000 * denominator NTSC / numerator NTSC
    <= value (indexToTimestamp NTSC 31) - value (indexToTimestamp NTSC 30)
    <= 1000000000 * denominator NTSC / numerator NTSC + 1.
Proof.
  apply (indexToTimestamp_spacing NTSC 30);
    unfold rational_wf, in_int64, in_uint64; cbn [numerator denominator NTSC];
    try lia; vm_compute; reflexivity.
Defined.

(** X5. The conversions do not drift: for a positive rate, [den] seconds
    later the index is exactly [num] larger, and [num] indices later the
    timestamp is exactly [10^9 * den] nanoseconds larger. *)
Theorem conversions_periodic (r : mxlRational) (t index : Z) :
  rational_wf r -> 0 < numerator r -> 0 < denominator r ->
  (in_int64 t -> in_int64 (t + 1000000000 * denominator r) ->
   0 <= t * numerator r + 500000000 * denominator r ->
   spec_timestampToIndex r (t + 1000000000 * denominator r) < 2 ^ 64 ->
   timestampToIndex r {| value := t + 1000000000 * denominator r |}
   = timestampToIndex r {| value := t |} + numerator r) /\
  (in_uint64 index -> in_uint64 (index + numerator r) ->
   spec_indexToTimestamp r (index + numerator r) < 2 ^ 63 ->
   value (indexToTimestamp r (index + numerator r))
   = value (indexToTimestamp r index) + 1000000000 * denominator r).
Proof.
  intros Hwf Hn Hd. split.
  - intros Ht Ht' Hnum Hfit.
    assert (Hshift : spec_timestampToIndex r (t + 1000000000 * denominator r)
                     = spec_timestampToIndex r t + numerator r).
    { unfold spec_timestampToIndex.
      replace ((t + 1000000000 * denominator r) * numerator r
               + 500000000 * denominator r)
        with (t * numerator r + 500000000 * denominator r
              + numerator r * (1000000000 * denominator r)) by ring.
      apply Z.div_add. lia. }
    assert (Hq0 : 0 <= spec_timestampToIndex r t)
      by (unfold spec_timestampToIndex; apply Z.div_pos; lia).
    rewrite !timestampToIndex_floor by (assumption || nia). exact Hshift.
  - intros Hi Hi' Hfit. unfold in_uint64 in Hi, Hi'.
    assert (Hshift : spec_indexToTimestamp r (index + numerator r)
                     = spec_indexToTimestamp r index + 1000000000 * denominator r).
    { unfold spec_indexToTimestamp.
      replace ((index + numerator r) * denominator r * 1000000000 + numerator r / 2)
        with (index * denominator r * 1000000000 + numerator r / 2
              + 1000000000 * denominator r * numerator r) by ring.
      apply Z.div_add. lia. }
    pose proof (spec_indexToTimestamp_nonneg r index Hn Hd ltac:(lia)) as H0.
    rewrite (indexToTimestamp_floor r (index + numerator r) Hwf Hn ltac:(lia)
               ltac:(unfold in_uint64; lia) ltac:(lia)).
    rewrite (indexToTimestamp_floor r index Hwf Hn ltac:(lia)
               ltac:(unfold in_uint64; lia) ltac:(lia)).
    exact Hshift.
Qed.

Lemma conversions_periodic_witness :
  timestampToIndex NTSC {| value := 1000000000 + 1000000000 * denominator NTSC |}
  = timestampToIndex NTSC {| value := 1000000000 |} + numerator NTSC /\
  value (indexToTimestamp NTSC (30 + numerator NTSC))
  = value (indexToTimestamp NTSC 30) + 1000000000 * denominator NTSC.
Proof.
  destruct (conversions_periodic NTSC 1000000000 30) as [Hindex Htime];
    try (unfold rational_wf, in_int64; cbn [numerator denominator NTSC]; lia).
  split.
  - apply Hindex; unfold in_int64; cbn [numerator denominator NTSC];
      try lia; vm_compute; reflexivity.
  - apply Htime; unfold in_uint64; cbn [numerator denominator NTSC];
      try lia; vm_compute; reflexivity.
Defined.

(** The reserved index also comes out for a valid rate, 1.5 s before the
    epoch at one grain per second. *)
Example undefined_index_before_epoch :
  timestampToIndex {| numerator := 1; denominator := 1 |} {| value := -1500000000 |}
  = MXL_UNDEFINED_INDEX.
Proof. reflexivity. Qed.

(** X6. From the epoch on, and for rates without a negative term of at
    most one grain per nanosecond, the reserved [MXL_UNDEFINED_INDEX]
    tells exactly that the rate has a zero term: a valid rate never
    yields it. *)
Theorem undefined_index_iff_zero_term (r : mxlRational) (t : Z) :
  rational_wf r -> 0 <= numerator r -> 0 <= denominator r ->
  numerator r <= 1000000000 * denominator r ->
  in_int64 t -> 0 <= t ->
  timestampToIndex r {| value := t |} = MXL_UNDEFINED_INDEX <->
  numerator r = 0 \/ denominator r = 0.
Proof.
  intros Hwf Hn Hd Hrate Ht Ht0. split.
  - intros Hundef.
    destruct (Z.eq_dec (numerator r) 0) as [Hn0 | Hn0]; [left; assumption |].
    destruct (Z.eq_dec (denominator r) 0) as [Hd0 | Hd0]; [right; assumption |].
    exfalso.
    pose proof (spec_timestampToIndex_bounds r t ltac:(lia)) as Hq.
    assert (Hq0 : 0 <= spec_timestampToIndex r t)
      by (unfold spec_timestampToIndex; apply Z.div_pos; nia).
    assert (Hqt : spec_timestampToIndex r t <= t) by nia.
    unfold in_int64 in Ht.
    rewrite timestampToIndex_floor in Hundef by (assumption || lia).
    unfold MXL_UNDEFINED_INDEX in Hundef. lia.
  - intros Hzero. unfold timestampToIndex.
    rewrite (rate_guard_false r Hzero). reflexivity.
Qed.

Lemma undefined_index_iff_zero_term_witness :
  timestampToIndex {| numerator := 0; denominator := 1 |} {| value := 1000000000 |}
    = MXL_UNDEFINED_INDEX <->
  numerator {| numerator := 0; denominator := 1 |} = 0 \/
  denominator {| numerator := 0; denominator := 1 |} = 0.
Proof.
  apply (undefined_index_iff_zero_term {| numerator := 0; denominator := 1 |} 1000000000);
    unfold rational_wf, in_int64; cbn [numerator denominator]; lia.
Defined.

Lemma quot_half_self (n : Z) : n <> 0 -> Z.quot (Z.quot n 2) n = 0.
Proof.
  intros Hn. destruct (Z_lt_le_dec 0 n) as [Hpos | Hneg].
  - apply Z.quot_small. rewrite Z.quot_div_nonneg by lia.
    pose proof (half_bounds n Hpos). lia.
  - rewrite <- (Z.opp_involutive n) at 1 2.
    rewrite Z.quot_opp_l by lia. rewrite Z.quot_opp_opp by lia.
    apply Z.quot_small. rewrite Z.quot_div_nonneg by lia.
    pose proof (half_bounds (- n) ltac:(lia)). lia.
Qed.

Lemma quot_half_period (d : Z) :
  d <> 0 -> Z.quot (500000000 * d) (1000000000 * d) = 0.
Proof.
  intros Hd. destruct (Z_lt_le_dec 0 d) as [Hpos | Hneg].
  - apply Z.quot_small. lia.
  - rewrite <- (Z.quot_opp_opp (500000000 * d)) by lia.
    apply Z.quot_small. lia.
Qed.

(** X7. The epoch is index 0 and index 0 is the epoch: for every rate
    [indexToTimestamp r 0] is the zero timepoint, and for every rate
    without a zero term, negative terms included, [timestampToIndex r 0]
    is 0. *)
Theorem epoch_is_index_zero (r : mxlRational) :
  rational_wf r ->
  value (indexToTimestamp r 0) = 0 /\
  (numerator r <> 0 -> denominator r <> 0 ->
   timestampToIndex r {| value := 0 |} = 0).
Proof.
  intros Hwf. split.
  - destruct (Z.eq_dec (numerator r) 0) as [Hn0 | Hn0];
      [unfold indexToTimestamp; rewrite rate_guard_false by auto; reflexivity |].
    destruct (Z.eq_dec (denominator r) 0) as [Hd0 | Hd0];
      [unfold indexToTimestamp; rewrite rate_guard_false by auto; reflexivity |].
    pose proof (quot_abs_le (numerator r) 2) as Hhalf.
    destruct Hwf as [Hn Hd]. unfold in_int64 in Hn.
    rewrite indexToTimestamp_quot;
      try assumption; try (split; assumption);
      try (unfold in_uint64; lia); try (simpl; lia).
    rewrite !Z.mul_0_l, Z.add_0_l, quot_half_self by assumption. reflexivity.
  - intros Hn0 Hd0.
    rewrite timestampToIndex_quot by (assumption || (unfold in_int64; lia)).
    rewrite Z.mul_0_l, Z.add_0_l, quot_half_period by assumption. reflexivity.
Qed.

Lemma epoch_is_index_zero_witness :
  value (indexToTimestamp NTSC 0) = 0 /\
  timestampToIndex NTSC {| value := 0 |} = 0.
Proof.
  destruct (epoch_is_index_zero NTSC) as [Htime Hindex];
    [unfold rational_wf, in_int64; cbn [numerator denominator NTSC]; lia |].
  split; [exact Htime | apply Hindex; discriminate].
Defined.

End IndexConversionLaws.

(** ** The synchronization group: how the operations compose *)

Module FlowSynchronizationGroupLaws.
Import Int IntFacts IndexConversion FlowSynchronizationGroup.
Import FlowSynchronizationGroupFacts.

Section EnrollmentLaws.

Variable getFlowConfigInfo : FlowReader -> mxlRational.

Local Abbreviation addReader_discrete := (addReader_discrete getFlowConfigInfo).
Local Abbreviation addReader_continuous := (addReader_continuous getFlowConfigInfo).
Local Abbreviation ListEntry_discrete := (ListEntry_discrete getFlowConfigInfo).
Local Abbreviation ListEntry_continuous := (ListEntry_continuous getFlowConfigInfo).

(** X8. Enrolling a reader and removing it again is the same as removing
    it: [removeReader] after either [addReader] gives the group that
    [removeReader] alone gives, and for a reader that was not enrolled it
    gives back the group as it was. *)
Theorem removeReader_after_addReader (r : FlowReader) (m : Z) (l : ReaderList) :
  removeReader r (addReader_discrete r m l) = removeReader r l /\
  removeReader r (addReader_continuous r l) = removeReader r l /\
  (r ∉ readers l ->
   removeReader r (addReader_discrete r m l) = l /\
   removeReader r (addReader_continuous r l) = l).
Proof.
  assert (Hboth : removeReader r (addReader_discrete r m l) = removeReader r l /\
                  removeReader r (addReader_continuous r l) = removeReader r l).
  { destruct (decide (r ∈ readers l)) as [Hin | Hnot].
    - destruct (enrolled_split r l Hin) as (l1 & e & l2 & -> & He & Hnot).
      rewrite addReader_discrete_at by assumption.
      rewrite addReader_continuous_enrolled by assumption.
      rewrite !removeReader_at by assumption. split; reflexivity.
    - rewrite addReader_discrete_new, addReader_continuous_new by assumption.
      rewrite !removeReader_at by (assumption || reflexivity).
      rewrite app_nil_r, removeReader_absent by assumption. split; reflexivity. }
  destruct Hboth as [Hd Hc]. split; [exact Hd |]. split; [exact Hc |].
  intros Hnot. rewrite Hd, Hc, removeReader_absent by assumption.
  split; reflexivity.
Qed.

Lemma readers_removeReader_at (r : FlowReader) (l1 l2 : ReaderList) (e : ListEntry) :
  reader e = r -> r ∉ readers l1 -> r ∉ readers l2 ->
  filter (fun x => x <> r) (readers (l1 ++ e :: l2)) = readers (l1 ++ l2).
Proof.
  unfold readers. intros He Hnot1 Hnot2.
  rewrite !fmap_app, fmap_cons, !filter_app, filter_cons_False by (rewrite He; auto).
  assert (Hkeep : forall k : list FlowReader, r ∉ k -> filter (fun x => x <> r) k = k).
  { intros k Hk. induction k as [| x k IH]; [reflexivity |].
    apply not_elem_of_cons in Hk as [Hne Hk].
    rewrite filter_cons_True by congruence. rewrite IH by assumption. reflexivity. }
  rewrite !Hkeep by assumption. reflexivity.
Qed.

(** X9. In a group without duplicate readers [removeReader] takes out
    exactly the given reader: the readers left are the others, in the
    order they had, the reader itself is no longer enrolled, and two
    removals can be done in either order. *)
Theorem removeReader_exactly (r r' : FlowReader) (l : ReaderList) :
  NoDup (readers l) ->
  readers (removeReader r l) = filter (fun x => x <> r) (readers l) /\
  (r ∉ readers (removeReader r l)) /\
  removeReader r (removeReader r' l) = removeReader r' (removeReader r l).
Proof.
  intros Hnd.
  assert (Hfilter : forall (r0 : FlowReader) (k : ReaderList),
             NoDup (readers k) ->
             readers (removeReader r0 k) = filter (fun x => x <> r0) (readers k)).
  { intros r0 k Hk. destruct (decide (r0 ∈ readers k)) as [Hin | Hnot].
    - destruct (enrolled_split r0 k Hin) as (l1 & e & l2 & -> & He & Hnot1).
      assert (Hnot2 : r0 ∉ readers l2).
      { unfold readers in *. rewrite fmap_app, fmap_cons in Hk.
        apply NoDup_app in Hk as (_ & _ & Hk2).
        apply NoDup_cons in Hk2 as [Hfresh _]. rewrite He in Hfresh. exact Hfresh. }
      rewrite removeReader_at by assumption.
      symmetry. apply readers_removeReader_at; assumption.
    - rewrite removeReader_absent by assumption.
      clear Hk. unfold readers in *. induction (reader <$> k) as [| x xs IH];
        [reflexivity |].
      apply not_elem_of_cons in Hnot as [Hne Hnot].
      rewrite filter_cons_True by congruence. rewrite <- IH by assumption.
      reflexivity. }
  split; [apply Hfilter; assumption |].
  split; [apply removeReader_NoDup; assumption |].
  clear Hfilter Hnd. induction l as [| e l IH]; simpl; [reflexivity |].
  destruct (decide (reader e = r')) as [He' | He'];
    destruct (decide (reader e = r)) as [He | He]; simpl.
  - congruence.
  - rewrite decide_True by assumption. reflexivity.
  - rewrite decide_True by assumption. reflexivity.
  - rewrite !decide_False by assumption. rewrite IH. reflexivity.
Qed.

(** X10. Enrolling a reader again after its removal starts afresh: in a
    group without duplicate readers the new entry goes to the tail of the
    list, behind the readers that stayed, and its observed delay is zero
    whatever delay the removed entry had. *)
Theorem reenrollment_starts_afresh (r : FlowReader) (m : Z) (l : ReaderList) :
  NoDup (readers l) ->
  addReader_discrete r m (removeReader r l)
    = removeReader r l ++ [ListEntry_discrete r m] /\
  addReader_continuous r (removeReader r l)
    = removeReader r l ++ [ListEntry_continuous r] /\
  delay_of r (addReader_discrete r m (removeReader r l)) = Some 0 /\
  delay_of r (addReader_continuous r (removeReader r l)) = Some 0.
Proof.
  intros Hnd. destruct (removeReader_NoDup r l Hnd) as [_ Hgone].
  pose proof (proj2 (delay_of_None r (removeReader r l)) Hgone) as Hnone.
  split; [apply addReader_discrete_new; assumption |].
  split; [apply addReader_continuous_new; assumption |].
  rewrite delay_of_addReader_discrete, delay_of_addReader_continuous, Hnone.
  rewrite decide_True by reflexivity. split; reflexivity.
Qed.

End EnrollmentLaws.

Section WaitLaws.

Variable getFlowConfigInfo : FlowReader -> mxlRational.
Variable World : Type.
Variable alive : World -> FlowReader -> bool.
Variable getFlowRuntimeInfo : FlowReader -> World -> Z * World.
Variable waitForGrain : FlowReader -> Z -> Z -> Timepoint -> World -> mxlStatus * World.
Variable waitForSamples : FlowReader -> Z -> Timepoint -> World -> mxlStatus * World.
Variable currentTime : World -> Timepoint * World.

Local Abbreviation wait_on := (wait_on World waitForGrain waitForSamples).
Local Abbreviation records_delay :=
  (records_delay World getFlowRuntimeInfo waitForGrain waitForSamples currentTime).
Local Abbreviation record_source_delay := (record_source_delay World currentTime).
Local Abbreviation waitForDataAt_body :=
  (waitForDataAt_body World alive getFlowRuntimeInfo waitForGrain waitForSamples
     currentTime).
Local Abbreviation waitForDataAt_loop :=
  (waitForDataAt_loop World alive getFlowRuntimeInfo waitForGrain waitForSamples
     currentTime).
Local Abbreviation waitForDataAt :=
  (waitForDataAt World alive getFlowRuntimeInfo waitForGrain waitForSamples
     currentTime).
Local Abbreviation spec_waitForDataAt :=
  (spec_waitForDataAt World getFlowRuntimeInfo waitForGrain waitForSamples currentTime).
Local Abbreviation settled_without_delay :=
  (settled_without_delay World alive getFlowRuntimeInfo waitForGrain waitForSamples).
Local Abbreviation pass_in_range :=
  (pass_in_range World getFlowRuntimeInfo waitForGrain waitForSamples currentTime).
Local Abbreviation group_step :=
  (group_step getFlowConfigInfo World alive getFlowRuntimeInfo waitForGrain
     waitForSamples currentTime).
Local Abbreviation reachable :=
  (reachable getFlowConfigInfo World alive getFlowRuntimeInfo waitForGrain
     waitForSamples currentTime).

(** *** Invariants of the groups the operations build *)

Lemma group_step_grainRate (l l' : ReaderList) :
  group_step l l' ->
  (forall e, e ∈ l -> grainRate e = getFlowConfigInfo (reader e)) ->
  forall e', e' ∈ l' -> grainRate e' = getFlowConfigInfo (reader e').
Proof.
  intros [r m l0 | r l0 | r l0 | fuel o d l0 w s l1 w' Hrun] Hinv e' He'.
  - apply elem_of_addReader_discrete in He' as [H | [(e & He & ->) | ->]].
    + apply Hinv. assumption.
    + simpl. apply Hinv. assumption.
    + reflexivity.
  - apply elem_of_addReader_continuous in He' as [H | ->].
    + apply Hinv. assumption.
    + reflexivity.
  - apply Hinv. eapply elem_of_removeReader. eassumption.
  - apply waitForDataAt_loop_grows in Hrun as [_ Hg].
    destruct (Hg e' He') as (e & He & Hr & _ & _ & Hrate & _).
    rewrite Hrate, Hr. apply Hinv. assumption.
Qed.

(** X11. In every group built by [addReader], [removeReader] and
    [waitForDataAt] no reader is enrolled twice, and every entry caches the
    grain rate that the configuration of its reader reports. *)
Theorem reachable_group_invariants (l : ReaderList) :
  reachable l ->
  NoDup (readers l) /\
  forall e, e ∈ l -> grainRate e = getFlowConfigInfo (reader e).
Proof.
  intros Hreach. split; [apply (reachable_NoDup _ _ _ _ _ _ _ _ Hreach) |].
  induction Hreach as [| l l' _ IH Hstep].
  - intros e He. inversion He.
  - eapply group_step_grainRate; eassumption.
Qed.

(** *** Calls in which no wait succeeds *)

(** X12. A call in which no wait succeeds returns after one pass per
    entry visited: with every flow at its expected index the status is
    [MXL_STATUS_OK], and otherwise it is the status of the wait on the
    first flow that is behind. The group is left exactly as it was, and
    the status and the environment are those of the contract. *)
Theorem waitForDataAt_settled (originTime deadline : Timepoint)
    (l : ReaderList) (w w' : World) (s : mxlStatus) (fuel : nat) :
  settled_without_delay originTime deadline l w = Some (s, w') ->
  waitForDataAt (S (length l) + fuel) originTime deadline l w = Returns s l w' /\
  spec_waitForDataAt originTime deadline l w = (s, w').
Proof.
  intros Hsettled. split.
  - apply (waitForDataAt_loop_settled World alive getFlowRuntimeInfo waitForGrain
             waitForSamples currentTime originTime deadline l w w' s 0);
      [rewrite drop_0; exact Hsettled | lia].
  - apply (settled_without_delay_spec World alive getFlowRuntimeInfo waitForGrain
             waitForSamples currentTime). exact Hsettled.
Qed.

(** *** The head of the list *)

Lemma readers_insert_delay (l : ReaderList) (it : nat) (current : ListEntry) (d : Z) :
  l !! it = Some current ->
  readers (<[it := set_maxObservedSourceDelay d current]> l) = readers l.
Proof.
  intros Hcur. unfold readers. rewrite list_fmap_insert. simpl.
  apply list_insert_id. rewrite list_lookup_fmap, Hcur. reflexivity.
Qed.

(** After a successful wait on the head the loop moves on to the second
    entry; the order of the list stays. *)
Lemma record_source_delay_head (l : ReaderList) (current : ListEntry)
    (expectedIndex : Z) (w : World) :
  l !! 0%nat = Some current ->
  exists l',
    record_source_delay l 0 current expectedIndex w
      = Continue l' 1 (snd (currentTime w)) /\
    readers l' = readers l.
Proof.
  intros Hcur. unfold FlowSynchronizationGroup.record_source_delay.
  destruct (currentTime w) as [currentTaiTime w3]. simpl.
  destruct (value currentTaiTime >? _); [| exists l; split; reflexivity].
  destruct (to_int64 _ >? maxObservedSourceDelay current);
    [| exists l; split; reflexivity].
  rewrite list_lookup_insert_eq by (eapply lookup_lt_Some; eassumption).
  simpl. rewrite Z.gtb_ltb, Z.ltb_irrefl.
  eexists. split; [reflexivity |]. apply readers_insert_delay. assumption.
Qed.

Lemma waitForDataAt_body_head (originTime deadline : Timepoint)
    (l : ReaderList) (w : World) (current : ListEntry) :
  l !! 0%nat = Some current ->
  (waitForDataAt_body originTime deadline l 0 w = UndefinedBehaviour /\
   (alive w (reader current) = false \/
    alive (snd (getFlowRuntimeInfo (reader current) w)) (reader current) = false)) \/
  (exists s w', waitForDataAt_body originTime deadline l 0 w = Return s l w') \/
  (exists l' w',
     waitForDataAt_body originTime deadline l 0 w = Continue l' 1 w' /\
     readers l' = readers l).
Proof.
  intros Hcur. unfold FlowSynchronizationGroup.waitForDataAt_body. rewrite Hcur.
  destruct (alive w (reader current)); simpl; [| left; auto].
  destruct (getFlowRuntimeInfo (reader current) w) as [headIndex w1]. simpl.
  destruct (_ >? headIndex);
    [| right; right; exists l, w1; split; reflexivity].
  destruct (alive w1 (reader current)); simpl; [| left; auto].
  destruct (FlowSynchronizationGroup.wait_on _ _ _ _ _ _ _) as [result w2].
  destruct (decide (result = MXL_STATUS_OK)).
  - destruct (record_source_delay_head l current
                (timestampToIndex (grainRate current) originTime) w2 Hcur)
      as (l' & -> & Hreaders).
    right; right. exists l', (snd (currentTime w2)). split; [reflexivity | assumption].
  - right; left. exists result, w2. reflexivity.
Qed.

Lemma waitForDataAt_body_head_Continue (originTime deadline : Timepoint)
    (l : ReaderList) (w : World) (l' : ReaderList) (it' : nat) (w' : World) :
  waitForDataAt_body originTime deadline l 0 w = Continue l' it' w' ->
  it' = 1%nat /\ readers l' = readers l.
Proof.
  intros Hbody.
  destruct (l !! 0%nat) as [current |] eqn:Hcur.
  - destruct (waitForDataAt_body_head originTime deadline l w current Hcur)
      as [[Hub _] | [(s & w1 & Hret) | (l1 & w1 & Hcont & Hreaders)]];
      try congruence.
    rewrite Hcont in Hbody. injection Hbody as <- <- <-. auto.
  - unfold FlowSynchronizationGroup.waitForDataAt_body in Hbody.
    rewrite Hcur in Hbody. discriminate.
Qed.

(** X13. The entry at the head of the list is never promoted: a pass of
    the loop over the head that goes on leaves the order of the list as it
    is and moves on to the second entry. The splice of line 116 is never
    reached from the head: with the reader of the head alive (when its
    runtime info is read and when it is waited on) and the signed
    arithmetic of the pass in range, which are the other two ways in which
    a pass can be undefined, the pass over the head is defined. *)
Theorem head_is_never_promoted (originTime deadline : Timepoint)
    (l : ReaderList) (w : World) :
  (forall l' it' w',
     waitForDataAt_body originTime deadline l 0 w = Continue l' it' w' ->
     it' = 1%nat /\ readers l' = readers l) /\
  (forall current,
     l !! 0%nat = Some current ->
     alive w (reader current) = true ->
     alive (snd (getFlowRuntimeInfo (reader current) w)) (reader current) = true ->
     pass_in_range originTime deadline current w ->
     waitForDataAt_body originTime deadline l 0 w <> UndefinedBehaviour).
Proof.
  split.
  - apply waitForDataAt_body_head_Continue.
  - intros current Hcur Halive Halive' _.
    destruct (waitForDataAt_body_head originTime deadline l w current Hcur)
      as [[_ [Hdead | Hdead]] | [(s & w1 & Hret) | (l1 & w1 & Hcont & _)]];
      congruence.
Qed.

(** *** Where the behaviour is undefined *)

Lemma waitForDataAt_body_undefined_alive (originTime deadline : Timepoint)
    (l : ReaderList) (it : nat) (w : World) (current : ListEntry) :
  l !! it = Some current ->
  alive w (reader current) = true ->
  alive (snd (getFlowRuntimeInfo (reader current) w)) (reader current) = true ->
  waitForDataAt_body originTime deadline l it w = UndefinedBehaviour ->
  S it = length l /\ it <> 0%nat /\
  exists sourceDelay begin,
    records_delay originTime deadline current w sourceDelay /\
    maxObservedSourceDelay current < sourceDelay /\
    l !! 0%nat = Some begin /\
    maxObservedSourceDelay begin < sourceDelay.
Proof.
  intros Hcur Halive Halive'. unfold FlowSynchronizationGroup.waitForDataAt_body.
  rewrite Hcur, Halive. simpl.
  destruct (getFlowRuntimeInfo (reader current) w) as [headIndex w1] eqn:Hinfo.
  simpl in Halive'.
  destruct (_ >? headIndex) eqn:Hbehind; [| discriminate].
  rewrite Halive'. simpl.
  destruct (FlowSynchronizationGroup.wait_on _ _ _ _ _ _ _) as [result w2] eqn:Hwait.
  destruct (decide (result = MXL_STATUS_OK)) as [-> | Hne]; [| discriminate].
  unfold FlowSynchronizationGroup.record_source_delay.
  destruct (currentTime w2) as [currentTaiTime w3] eqn:Htime.
  destruct (value currentTaiTime >? _) eqn:Hlate; [| discriminate].
  destruct (to_int64 _ >? maxObservedSourceDelay current) eqn:Hmore; [| discriminate].
  apply Z.gtb_lt in Hbehind, Hlate, Hmore.
  pose proof (lookup_lt_Some _ _ _ Hcur) as Hlen.
  destruct it as [| it].
  - rewrite list_lookup_insert_eq by assumption. simpl.
    rewrite Z.gtb_ltb, Z.ltb_irrefl. discriminate.
  - rewrite list_lookup_insert_ne by discriminate.
    destruct (l !! 0%nat) as [begin |] eqn:Hbegin;
      [| apply lookup_ge_None in Hbegin; lia].
    simpl. destruct (_ >? maxObservedSourceDelay begin) eqn:Hhead; [| discriminate].
    apply Z.gtb_lt in Hhead.
    destruct (splice_after_before_begin _ (S it)) as [l2 |] eqn:Hsplice;
      [discriminate |].
    apply splice_after_before_begin_None in Hsplice.
    rewrite length_insert in Hsplice.
    intros _. split; [lia |]. split; [discriminate |].
    eexists _, begin. split; [| split; [exact Hmore | split; [reflexivity | exact Hhead]]].
    exists headIndex, w1, w2, currentTaiTime, w3.
    repeat split; try assumption; lia.
Qed.

(** X14. A pass of the loop can be undefined in three ways: a call
    through the pointer of a destroyed reader, an overflow of the signed
    arithmetic of lines 83, 106 and 110, and the [splice_after] of line
    116. With the first two set aside (the reader of the visited entry is
    alive when its runtime info is read and when it is waited on, and the
    arithmetic of the pass stays in range), the pass is undefined exactly
    when the entry is the last one of a group of at least two, a delay
    larger than its cached one was recorded for it after a successful
    wait, and that delay is larger than the cached delay of the head. *)
Theorem undefined_only_at_last_entry (originTime deadline : Timepoint)
    (l : ReaderList) (it : nat) (w : World) (current : ListEntry) :
  l !! it = Some current ->
  alive w (reader current) = true ->
  alive (snd (getFlowRuntimeInfo (reader current) w)) (reader current) = true ->
  pass_in_range originTime deadline current w ->
  waitForDataAt_body originTime deadline l it w = UndefinedBehaviour <->
  S it = length l /\ it <> 0%nat /\
  exists sourceDelay begin,
    records_delay originTime deadline current w sourceDelay /\
    maxObservedSourceDelay current < sourceDelay /\
    l !! 0%nat = Some begin /\
    maxObservedSourceDelay begin < sourceDelay.
Proof.
  intros Hcur Halive Halive' _. split.
  - apply waitForDataAt_body_undefined_alive; assumption.
  - intros (Hlast & Hnot0 & sourceDelay & begin & Hrec & Hmore & Hbegin & Hhead).
    apply (waitForDataAt_body_promotes_last World alive getFlowRuntimeInfo
             waitForGrain waitForSamples currentTime originTime deadline l it w
             current begin sourceDelay); assumption.
Qed.

(** *** Small groups *)

Lemma waitForDataAt_body_small (originTime deadline : Timepoint)
    (l l' : ReaderList) (it it' : nat) (w w' : World) :
  (length l <= 2)%nat ->
  waitForDataAt_body originTime deadline l it w = Continue l' it' w' ->
  readers l' = readers l.
Proof.
  intros Hsmall Hbody. destruct it as [| it].
  - destruct (waitForDataAt_body_head_Continue originTime deadline l w l' it' w' Hbody)
      as [_ Hreaders]. exact Hreaders.
  - apply (waitForDataAt_body_Continue World alive getFlowRuntimeInfo waitForGrain
             waitForSamples currentTime) in Hbody
      as (current & Hcur & [[-> _] | (d & _ & _ & [[-> _] | [Hs _]])]).
    + reflexivity.
    + apply readers_insert_delay. assumption.
    + apply splice_after_before_begin_Some in Hs as (moved & Hnext & _).
      apply lookup_lt_Some in Hnext. rewrite length_insert in Hnext. lia.
Qed.

Lemma waitForDataAt_loop_small (fuel : nat) (originTime deadline : Timepoint)
    (l l' : ReaderList) (it : nat) (w w' : World) (s : mxlStatus) :
  (length l <= 2)%nat ->
  waitForDataAt_loop fuel originTime deadline l it w = Returns s l' w' ->
  readers l' = readers l.
Proof.
  revert l it w. induction fuel as [| fuel IH]; intros l it w Hsmall; simpl;
    [discriminate |].
  destruct (waitForDataAt_body originTime deadline l it w)
    as [l1 it1 w1 | s1 l1 w1 |] eqn:Hbody; [| | discriminate].
  - pose proof (waitForDataAt_body_small _ _ _ _ _ _ _ _ Hsmall Hbody) as Hreaders.
    intros Hloop. rewrite <- Hreaders. apply (IH l1 it1 w1); [| exact Hloop].
    apply (f_equal length) in Hreaders. unfold readers in Hreaders.
    rewrite !length_fmap in Hreaders. lia.
  - intros [= <- <- <-].
    apply (waitForDataAt_body_Return World alive getFlowRuntimeInfo waitForGrain
             waitForSamples currentTime) in Hbody as [-> _].
    reflexivity.
Qed.

(** X15. In a group of one or two readers the promotion never takes
    effect. A call of [waitForDataAt] whose behaviour is defined and that
    returns (the outcome [Returns], which no undefined pass leads to)
    leaves the readers in the order they had before the call; and a pass
    that is to promote the second of two entries is undefined, since the
    [splice_after] of line 116 has no node to move. Nothing is said of the
    group after a call that was undefined. *)
Theorem small_group_keeps_order (originTime deadline : Timepoint) (l : ReaderList) :
  (length l <= 2)%nat ->
  (forall fuel w s l' w',
     waitForDataAt fuel originTime deadline l w = Returns s l' w' ->
     readers l' = readers l) /\
  (forall fuel w current begin sourceDelay,
     l !! 1%nat = Some current -> l !! 0%nat = Some begin ->
     records_delay originTime deadline current w sourceDelay ->
     maxObservedSourceDelay current < sourceDelay ->
     maxObservedSourceDelay begin < sourceDelay ->
     waitForDataAt_loop (S fuel) originTime deadline l 1 w = Undefined).
Proof.
  intros Hsmall. split.
  - intros fuel w s l' w' Hrun. eapply waitForDataAt_loop_small; eassumption.
  - intros fuel w current begin sourceDelay Hcur Hbegin Hrec Hmore Hhead. simpl.
    rewrite (waitForDataAt_body_promotes_last World alive getFlowRuntimeInfo
               waitForGrain waitForSamples currentTime originTime deadline l 1 w
               current begin sourceDelay); [reflexivity | assumption | | | | | |];
      try assumption; [| discriminate].
    apply lookup_lt_Some in Hcur. lia.
Qed.

(** *** A group of one reader *)


(** *** What a call leaves alone *)

(** X22. A call of [waitForDataAt] whose behaviour is defined and that
    returns (the outcome [Returns], which no undefined pass leads to: no
    destroyed reader is called through, and line 116 is not reached with
    the last entry of the list) changes nothing but the order of the
    entries and their observed delays: the group has as many entries as
    before, and every entry is one of the entries before the call with the
    same reader, [minValidSlices], variant and grain rate, and an observed
    delay that is not smaller. Nothing is said of the group after a call
    that was undefined. *)
Theorem waitForDataAt_keeps_policy (fuel : nat) (originTime deadline : Timepoint)
    (l l' : ReaderList) (w w' : World) (s : mxlStatus) :
  waitForDataAt fuel originTime deadline l w = Returns s l' w' ->
  length l' = length l /\
  forall e', e' ∈ l' ->
    exists e, e ∈ l /\ reader e' = reader e /\
              minValidSlices e' = minValidSlices e /\
              variant e' = variant e /\ grainRate e' = grainRate e /\
              maxObservedSourceDelay e <= maxObservedSourceDelay e'.
Proof.
  intros Hrun.
  apply (waitForDataAt_loop_grows World alive getFlowRuntimeInfo waitForGrain
           waitForSamples currentTime) in Hrun as [Hperm Hgrown].
  split.
  - apply Permutation_length in Hperm. unfold readers in Hperm.
    rewrite !length_fmap in Hperm. exact Hperm.
  - exact Hgrown.
Qed.

End WaitLaws.

(** *** The laws on concrete groups *)

Section LawsRuns.
Import Scenario.

Lemma group_ABC_distinct : NoDup (readers group_ABC).
Proof. apply (bool_decide_unpack _). vm_compute. exact I. Qed.

Lemma removeReader_exactly_witness :
  readers (removeReader B group_ABC) = filter (fun x => x <> B) (readers group_ABC) /\
  (B ∉ readers (removeReader B group_ABC)) /\
  removeReader B (removeReader A group_ABC) = removeReader A (removeReader B group_ABC).
Proof. apply (removeReader_exactly B A group_ABC). exact group_ABC_distinct. Defined.

Lemma reenrollment_starts_afresh_witness :
  addReader_discrete getFlowConfigInfo B 4 (removeReader B group_ABC)
    = removeReader B group_ABC ++ [ListEntry_discrete getFlowConfigInfo B 4] /\
  addReader_continuous getFlowConfigInfo B (removeReader B group_ABC)
    = removeReader B group_ABC ++ [ListEntry_continuous getFlowConfigInfo B] /\
  delay_of B (addReader_discrete getFlowConfigInfo B 4 (removeReader B group_ABC))
    = Some 0 /\
  delay_of B (addReader_continuous getFlowConfigInfo B (removeReader B group_ABC))
    = Some 0.
Proof.
  apply (reenrollment_starts_afresh getFlowConfigInfo B 4 group_ABC).
  exact group_ABC_distinct.
Defined.

Lemma group_ABC_after_wait_reachable :
  reachable getFlowConfigInfo World alive getFlowRuntimeInfo waitForGrain
    waitForSamples currentTime [entry C 0; entry A 0; entry B 50000000].
Proof.
  eapply reachable_step.
  - eapply reachable_step; [eapply reachable_step; [eapply reachable_step |] |].
    + apply reachable_empty.
    + apply (step_addReader_discrete _ _ _ _ _ _ _ A 1 []).
    + apply (step_addReader_discrete _ _ _ _ _ _ _ B 1 group_A).
    + apply (step_addReader_discrete _ _ _ _ _ _ _ C 1 group_AB).
  - apply (step_waitForDataAt _ _ _ _ _ _ _ 6%nat originTime deadline group_ABC slow_B
             MXL_STATUS_OK _ slow_B_arrived).
    reflexivity.
Qed.

Lemma reachable_group_invariants_witness :
  NoDup (readers [entry C 0; entry A 0; entry B 50000000]) /\
  forall e, e ∈ [entry C 0; entry A 0; entry B 50000000] ->
            grainRate e = getFlowConfigInfo (reader e).
Proof.
  apply (reachable_group_invariants getFlowConfigInfo World alive getFlowRuntimeInfo
           waitForGrain waitForSamples currentTime).
  exact group_ABC_after_wait_reachable.
Defined.

Lemma waitForDataAt_settled_witness :
  run 4 originTime deadline group_ABC very_slow_B
    = Returns MXL_ERR_TIMEOUT group_ABC (snd (waitForGrain B 10 1 deadline very_slow_B)) /\
  spec_run originTime deadline group_ABC very_slow_B
    = (MXL_ERR_TIMEOUT, snd (waitForGrain B 10 1 deadline very_slow_B)).
Proof.
  apply (waitForDataAt_settled World alive getFlowRuntimeInfo waitForGrain
           waitForSamples currentTime originTime deadline group_ABC very_slow_B
           (snd (waitForGrain B 10 1 deadline very_slow_B)) MXL_ERR_TIMEOUT 0).
  reflexivity.
Defined.

(** The arithmetic of the pass over [B] in [slow_B]: index 10, expected
    at 10 s, found 50 ms later. *)
Lemma slow_B_pass_in_range :
  pass_in_range World getFlowRuntimeInfo waitForGrain waitForSamples currentTime
    originTime deadline (entry B 0) slow_B.
Proof.
  split.
  - apply IndexConversionFacts.timestampToIndex_always_in_range;
      unfold rational_wf, in_int64; simpl; lia.
  - intros headIndex w1 w2 currentTaiTime w3 Hinfo _ Hwait Htime.
    injection Hinfo as <- <-. injection Hwait as <-. injection Htime as <- <-.
    split.
    + intros _ _. unfold in_int128. vm_compute. repeat split; discriminate.
    + intros _. unfold in_int64. vm_compute. split; [discriminate | reflexivity].
Qed.

Lemma head_is_never_promoted_witness :
  run_body originTime deadline [entry B 0; entry A 0] 0 slow_B
    = Continue [entry B 50000000; entry A 0] 1 slow_B_arrived /\
  readers [entry B 50000000; entry A 0] = readers [entry B 0; entry A 0] /\
  run_body originTime deadline [entry B 0; entry A 0] 0 slow_B <> UndefinedBehaviour.
Proof.
  destruct (head_is_never_promoted World alive getFlowRuntimeInfo waitForGrain
              waitForSamples currentTime originTime deadline
              [entry B 0; entry A 0] slow_B) as [Hstay Hsafe].
  split; [reflexivity |]. split.
  - apply (Hstay [entry B 50000000; entry A 0] 1%nat slow_B_arrived). reflexivity.
  - apply (Hsafe (entry B 0));
      [reflexivity | reflexivity | reflexivity | exact slow_B_pass_in_range].
Defined.

Lemma undefined_only_at_last_entry_witness :
  run_body originTime deadline group_AB 1 slow_B = UndefinedBehaviour <->
  2%nat = length group_AB /\ 1%nat <> 0%nat /\
  exists sourceDelay begin,
    records_delay World getFlowRuntimeInfo waitForGrain waitForSamples currentTime
      originTime deadline (entry B 0) slow_B sourceDelay /\
    maxObservedSourceDelay (entry B 0) < sourceDelay /\
    group_AB !! 0%nat = Some begin /\
    maxObservedSourceDelay begin < sourceDelay.
Proof.
  apply (undefined_only_at_last_entry World alive getFlowRuntimeInfo waitForGrain
           waitForSamples currentTime originTime deadline group_AB 1 slow_B (entry B 0));
    [reflexivity | reflexivity | reflexivity | exact slow_B_pass_in_range].
Defined.

(** Two readers: with the slow [B] at the head its delay is recorded and
    the order stays; with [B] behind [A] the pass over [B] is undefined. *)
Lemma small_group_keeps_order_witness :
  run 3 originTime deadline [entry B 0; entry A 0] slow_B
    = Returns MXL_STATUS_OK [entry B 50000000; entry A 0] slow_B_arrived /\
  readers [entry B 50000000; entry A 0] = readers [entry B 0; entry A 0] /\
  waitForDataAt_loop World alive getFlowRuntimeInfo waitForGrain waitForSamples
    currentTime 1 originTime deadline group_AB 1 slow_B = Undefined.
Proof.
  destruct (small_group_keeps_order World alive getFlowRuntimeInfo waitForGrain
              waitForSamples currentTime originTime deadline [entry B 0; entry A 0])
    as [Hkeep _]; [simpl; lia |].
  destruct (small_group_keeps_order World alive getFlowRuntimeInfo waitForGrain
              waitForSamples currentTime originTime deadline group_AB)
    as [_ Hlast]; [simpl; lia |].
  split; [reflexivity |]. split.
  - apply (Hkeep 3%nat slow_B MXL_STATUS_OK [entry B 50000000; entry A 0]
             slow_B_arrived).
    reflexivity.
  - apply (Hlast 0%nat slow_B (entry B 0) (entry A 0) 50000000);
      [reflexivity | reflexivity | exact slow_B_records_delay
      | reflexivity | reflexivity].
Defined.


Lemma waitForDataAt_keeps_policy_witness :
  length [entry C 0; entry A 0; entry B 50000000] = length group_ABC /\
  forall e', e' ∈ [entry C 0; entry A 0; entry B 50000000] ->
    exists e, e ∈ group_ABC /\ reader e' = reader e /\
              minValidSlices e' = minValidSlices e /\
              variant e' = variant e /\ grainRate e' = grainRate e /\
              maxObservedSourceDelay e <= maxObservedSourceDelay e'.
Proof.
  apply (waitForDataAt_keeps_policy World alive getFlowRuntimeInfo waitForGrain
           waitForSamples currentTime 6 originTime deadline group_ABC _ slow_B
           slow_B_arrived MXL_STATUS_OK).
  reflexivity.
Defined.

End LawsRuns.

End FlowSynchronizationGroupLaws.

(** ** The looping file player *)

Module LoopingFilePlayerFacts.
Import Int IntFacts IndexConversion LoopingFilePlayer.

(** *** Video caps *)

(** X17. [open] never reports a variable frame rate: the test for 0/1
    comes after the test that rejects every numerator that is not
    positive, so 0/1 is reported as a plain invalid frame rate. Caps are
    accepted exactly when width, height, numerator and denominator are all
    positive, and then the video grain rate holds the negotiated fraction,
    a rate without zero term. *)
Theorem video_caps_never_variable (width height : Z) (framerate : option (Z * Z)) :
  check_video_caps width height framerate <> VariableFramerate /\
  (0 < width -> 0 < height ->
   check_video_caps width height (Some (0, 1)) = InvalidFramerate) /\
  (forall rate,
     check_video_caps width height framerate = VideoRate rate <->
     0 < width /\ 0 < height /\
     framerate = Some (numerator rate, denominator rate) /\
     0 < numerator rate /\ 0 < denominator rate).
Proof.
  unfold check_video_caps. split; [| split].
  - destruct (width <=? 0), (height <=? 0); simpl; try discriminate.
    destruct framerate as [[fps_n fps_d] |]; [| discriminate].
    destruct (Z.leb_spec fps_n 0), (Z.leb_spec fps_d 0); simpl; try discriminate.
    destruct (Z.eqb_spec fps_n 0); simpl; [lia | discriminate].
  - intros Hw Hh.
    destruct (Z.leb_spec width 0), (Z.leb_spec height 0); simpl; try lia.
    reflexivity.
  - intros rate.
    destruct (Z.leb_spec width 0), (Z.leb_spec height 0); simpl;
      try (split; [discriminate | lia]).
    destruct framerate as [[fps_n fps_d] |];
      [| split; [discriminate | intros (_ & _ & ? & _); discriminate]].
    destruct (Z.leb_spec fps_n 0), (Z.leb_spec fps_d 0); simpl;
      try (split; [discriminate | intros (_ & _ & [= -> ->] & ? & ?); lia]).
    destruct (Z.eqb_spec fps_n 0); simpl; [lia |].
    split.
    + intros [= <-]. simpl. repeat split; lia.
    + intros (_ & _ & [= -> ->] & _ & _). destruct rate. reflexivity.
Qed.

(** *** Decoder pads *)

Lemma cb_pad_added_keeps_video (name : string) (made : option nat) (self : Sinks) (e : nat) :
  appSinkVideo self = Some e ->
  appSinkVideo (fst (cb_pad_added name made self)) = Some e.
Proof.
  intros He. unfold cb_pad_added.
  rewrite bool_decide_eq_false_2 by congruence. simpl.
  destruct (_ && _); simpl; assumption.
Qed.

Lemma cb_pad_added_keeps_audio (name : string) (made : option nat) (self : Sinks) (e : nat) :
  appSinkAudio self = Some e ->
  appSinkAudio (fst (cb_pad_added name made self)) = Some e.
Proof.
  intros He. unfold cb_pad_added.
  destruct (_ && _); simpl; [assumption |].
  rewrite bool_decide_eq_false_2 by congruence. simpl. assumption.
Qed.

(** X18. An app sink is set at most once: whatever pads the decoder
    announces afterwards, [appSinkVideo] and [appSinkAudio] keep the
    element they hold. A pad that is discarded changes nothing, and a pad
    whose caps are neither "video/..." nor "audio/..." is always
    discarded. *)
Theorem app_sinks_set_once (pads : list (string * option nat))
    (name : string) (made : option nat) (self : Sinks) :
  (forall e, appSinkVideo self = Some e ->
             appSinkVideo (pads_added pads self) = Some e) /\
  (forall e, appSinkAudio self = Some e ->
             appSinkAudio (pads_added pads self) = Some e) /\
  (snd (cb_pad_added name made self) = true ->
   fst (cb_pad_added name made self) = self) /\
  (g_str_has_prefix name "video/" = false ->
   g_str_has_prefix name "audio/" = false ->
   cb_pad_added name made self = (self, true)).
Proof.
  split; [| split; [| split]].
  - revert self. induction pads as [| [name' made'] pads IH]; intros self e He; simpl.
    + assumption.
    + apply IH. apply cb_pad_added_keeps_video. assumption.
  - revert self. induction pads as [| [name' made'] pads IH]; intros self e He; simpl.
    + assumption.
    + apply IH. apply cb_pad_added_keeps_audio. assumption.
  - unfold cb_pad_added. destruct (_ && _); simpl; [discriminate |].
    destruct (_ && _); simpl; [discriminate | reflexivity].
  - intros Hv Ha. unfold cb_pad_added. rewrite Hv, Ha, !andb_false_r. reflexivity.
Qed.

(** *** Buffer timestamps *)





(** *** Consecutive grain indices *)

(** X20. The "skipped grain index" warning is logged for every buffer
    whose grain index is not zero, whatever the index of the buffer before
    it was, also when it is the successor of that index: the last index is
    overwritten with the new one before the comparison, and no 64-bit
    index is its own successor. *)
Theorem skipped_warning_for_every_nonzero_index (lastGrainIndex grainIndex : Z) :
  in_uint64 grainIndex ->
  note_grain_index lastGrainIndex grainIndex = (grainIndex, negb (grainIndex =? 0)).
Proof.
  unfold in_uint64, note_grain_index, to_uint64. intros Hg.
  destruct (Z.eqb_spec grainIndex 0) as [-> | Hne]; [reflexivity |].
  destruct (Z.eqb_spec grainIndex ((grainIndex + 1) mod 2 ^ 64)) as [Heq | _];
    [| reflexivity].
  exfalso. destruct (Z.eq_dec grainIndex (2 ^ 64 - 1)) as [-> | Hmax].
  - vm_compute in Heq. discriminate.
  - rewrite Z.mod_small in Heq by lia. lia.
Qed.

Lemma skipped_warning_for_every_nonzero_index_witness :
  note_grain_index 41 42 = (42, negb (42 =? 0)).
Proof.
  apply (skipped_warning_for_every_nonzero_index 41 42). unfold in_uint64. lia.
Defined.

(** *** The copy of audio samples *)

Lemma fragments_size_nonneg (fragments : list Fragment) : 0 <= fragments_size fragments.
Proof.
  induction fragments as [| f rest IH]; simpl; [lia |].
  destruct (Z.gtb_spec (size f) 0); lia.
Qed.

Lemma copy_fragments_reads (chan stride : Z) (fragments : list Fragment) :
  forall offset copies offset',
    0 <= offset -> offset + fragments_size fragments < 2 ^ 64 ->
    copy_fragments chan stride fragments offset = (copies, offset') ->
    offset' = offset + fragments_size fragments /\
    (forall tail, reads_consecutively offset' tail ->
                  reads_consecutively offset (copies ++ tail)) /\
    Forall (fun c => exists f, f ∈ fragments /\ dst c = pointer f + chan * stride /\
                               n c = size f /\ 0 < n c) copies.
Proof.
  induction fragments as [| f rest IH]; intros offset copies offset' H0 Hfit; simpl.
  - intros [= <- <-]. simpl. split; [lia |]. split; [auto | constructor].
  - simpl in Hfit. pose proof (fragments_size_nonneg rest) as Hrest.
    revert Hfit. destruct (Z.gtb_spec (size f) 0) as [Hpos | Hzero]; intros Hfit.
    + rewrite to_uint64_small by (unfold in_uint64; lia).
      destruct (copy_fragments chan stride rest (offset + size f))
        as [copies1 offset1] eqn:Hcopy.
      intros [= <- <-].
      destruct (IH (offset + size f) copies1 offset1 ltac:(lia) ltac:(lia) Hcopy)
        as (-> & Hreads & Hall).
      split; [lia |]. split.
      * intros tail Htail. simpl. split; [reflexivity |]. apply Hreads. exact Htail.
      * constructor.
        -- exists f. simpl. repeat split; [apply elem_of_cons; auto | lia].
        -- eapply Forall_impl; [exact Hall |].
           intros c (f0 & Hin & Hrest'). exists f0.
           split; [apply elem_of_cons; auto | exact Hrest'].
    + intros Hcopy.
      destruct (IH offset copies offset' H0 ltac:(lia) Hcopy) as (-> & Hreads & Hall).
      split; [lia |]. split; [exact Hreads |].
      eapply Forall_impl; [exact Hall |].
      intros c (f0 & Hin & Hrest'). exists f0.
      split; [apply elem_of_cons; auto | exact Hrest'].
Qed.

Lemma copy_channels_reads (stride : Z) (fragments : list Fragment) (todo : nat) :
  forall chan offset copies offset',
    0 <= offset ->
    offset + Z.of_nat todo * fragments_size fragments < 2 ^ 64 ->
    copy_channels todo chan stride fragments offset = (copies, offset') ->
    offset' = offset + Z.of_nat todo * fragments_size fragments /\
    (forall tail, reads_consecutively offset' tail ->
                  reads_consecutively offset (copies ++ tail)) /\
    Forall (fun c => exists f ch,
                f ∈ fragments /\ chan <= ch < chan + Z.of_nat todo /\
                dst c = pointer f + ch * stride /\ n c = size f /\ 0 < n c) copies.
Proof.
  pose proof (fragments_size_nonneg fragments) as Hsize.
  induction todo as [| todo IH]; intros chan offset copies offset' H0 Hfit; simpl.
  - intros [= <- <-]. split; [lia |]. split; [auto | constructor].
  - destruct (copy_fragments chan stride fragments offset) as [copies1 offset1] eqn:Hfirst.
    destruct (copy_channels todo (chan + 1) stride fragments offset1)
      as [copies2 offset2] eqn:Hmore.
    intros [= <- <-].
    destruct (copy_fragments_reads chan stride fragments offset copies1 offset1 H0
                ltac:(nia) Hfirst) as (-> & Hreads1 & Hall1).
    destruct (IH (chan + 1) (offset + fragments_size fragments) copies2 offset2
                ltac:(lia) ltac:(nia) Hmore) as (-> & Hreads2 & Hall2).
    split; [lia |]. split.
    + intros tail Htail. rewrite <- app_assoc. apply Hreads1, Hreads2, Htail.
    + apply Forall_app. split.
      * eapply Forall_impl; [exact Hall1 |].
        intros c (f & Hin & Hrest). exists f, chan. split; [exact Hin |].
        split; [lia | exact Hrest].
      * eapply Forall_impl; [exact Hall2 |].
        intros c (f & ch & Hin & Hch & Hrest). exists f, ch. split; [exact Hin |].
        split; [lia | exact Hrest].
Qed.

Lemma copy_fragments_writes (chan stride : Z) (fragments : list Fragment) :
  forall offset,
    (fun c => (dst c, n c)) <$> fst (copy_fragments chan stride fragments offset)
    = (fun f => (pointer f + chan * stride, size f))
        <$> filter (fun f => 0 < size f) fragments.
Proof.
  induction fragments as [| f rest IH]; intros offset; simpl; [reflexivity |].
  rewrite filter_cons.
  destruct (Z.gtb_spec (size f) 0) as [Hpos | Hzero].
  - destruct (copy_fragments chan stride rest (to_uint64 (offset + size f)))
      as [copies offset'] eqn:Hcopy.
    rewrite decide_True by lia. simpl. f_equal.
    specialize (IH (to_uint64 (offset + size f))). rewrite Hcopy in IH. exact IH.
  - rewrite decide_False by lia. apply IH.
Qed.

Lemma copy_channels_writes (stride : Z) (fragments : list Fragment) (todo : nat) :
  forall chan offset,
    (fun c => (dst c, n c)) <$> fst (copy_channels todo chan stride fragments offset)
    = flat_map
        (fun chan => (fun f => (pointer f + chan * stride, size f))
                       <$> filter (fun f => 0 < size f) fragments)
        (seqZ chan (Z.of_nat todo)).
Proof.
  induction todo as [| todo IH]; intros chan offset; [reflexivity |].
  rewrite seqZ_cons by lia.
  replace (Z.pred (Z.of_nat (S todo))) with (Z.of_nat todo) by lia.
  rewrite <- Z.add_1_r. simpl.
  pose proof (copy_fragments_writes chan stride fragments offset) as Hfirst.
  destruct (copy_fragments chan stride fragments offset) as [copies1 offset1].
  specialize (IH (chan + 1) offset1).
  destruct (copy_channels todo (chan + 1) stride fragments offset1)
    as [copies2 offset2].
  simpl in *. rewrite fmap_app, Hfirst, IH. reflexivity.
Qed.

Lemma bytes_copied_app (copies more : list Memcpy) :
  bytes_copied (copies ++ more) = bytes_copied copies + bytes_copied more.
Proof.
  induction copies as [| c copies IH]; simpl; [reflexivity |].
  unfold bytes_copied in *. simpl. rewrite IH. lia.
Qed.

Lemma copy_fragments_bytes (chan stride : Z) (fragments : list Fragment) :
  forall offset,
    bytes_copied (fst (copy_fragments chan stride fragments offset))
    = fragments_size fragments.
Proof.
  induction fragments as [| f rest IH]; intros offset; simpl; [reflexivity |].
  destruct (Z.gtb_spec (size f) 0) as [Hpos | Hzero].
  - specialize (IH (to_uint64 (offset + size f))).
    destruct (copy_fragments chan stride rest (to_uint64 (offset + size f)))
      as [copies offset'].
    simpl in *. unfold bytes_copied in *. simpl. rewrite IH. reflexivity.
  - rewrite IH. lia.
Qed.

Lemma copy_channels_bytes (stride : Z) (fragments : list Fragment) (todo : nat) :
  forall chan offset,
    bytes_copied (fst (copy_channels todo chan stride fragments offset))
    = Z.of_nat todo * fragments_size fragments.
Proof.
  induction todo as [| todo IH]; intros chan offset; [reflexivity |].
  cbn [copy_channels].
  pose proof (copy_fragments_bytes chan stride fragments offset) as Hfirst.
  destruct (copy_fragments chan stride fragments offset) as [copies1 offset1].
  specialize (IH (chan + 1) offset1).
  destruct (copy_channels todo (chan + 1) stride fragments offset1)
    as [copies2 offset2].
  simpl in *. rewrite bytes_copied_app, Hfirst, IH. lia.
Qed.

(** X21. The copy loop of the audio thread copies, for channel 0, 1, ...
    up to the channel count in this order, every fragment of positive size
    once, in the order of the fragments: all of the fragment's bytes, to
    the fragment's address plus the channel number times the stride. It
    reads the mapped buffer front to back: the first [memcpy] reads from
    offset 0 and each later one from where the one before it ended, so
    that [offset] after the loop is the number of bytes copied, which is
    the channel count times the bytes of the fragments. (As long as that
    total stays below 2^64, where [offset] would wrap.) *)
Theorem copy_samples_reads_front_to_back (count stride : Z) (fragments : list Fragment) :
  0 <= count -> count * fragments_size fragments < 2 ^ 64 ->
  (fun c => (dst c, n c)) <$> fst (copy_samples count stride fragments)
    = flat_map
        (fun chan => (fun f => (pointer f + chan * stride, size f))
                       <$> filter (fun f => 0 < size f) fragments)
        (seqZ 0 count) /\
  reads_consecutively 0 (fst (copy_samples count stride fragments)) /\
  snd (copy_samples count stride fragments)
    = bytes_copied (fst (copy_samples count stride fragments)) /\
  snd (copy_samples count stride fragments) = count * fragments_size fragments.
Proof.
  intros Hcount Hfit. unfold copy_samples.
  pose proof (copy_channels_writes stride fragments (Z.to_nat count) 0 0) as Hwrites.
  pose proof (copy_channels_bytes stride fragments (Z.to_nat count) 0 0) as Hbytes.
  destruct (copy_channels (Z.to_nat count) 0 stride fragments 0)
    as [copies offset] eqn:Hcopy.
  destruct (copy_channels_reads stride fragments (Z.to_nat count) 0 0 copies offset
              ltac:(lia) ltac:(rewrite Z2Nat.id by lia; lia) Hcopy)
    as (-> & Hreads & _).
  rewrite Z2Nat.id in * by lia. simpl in *.
  split; [exact Hwrites |]. split.
  - specialize (Hreads [] I). rewrite app_nil_r in Hreads. exact Hreads.
  - split; lia.
Qed.

Lemma copy_samples_reads_front_to_back_witness :
  let fragments := [{| pointer := 4096; size := 1600 |};
                    {| pointer := 20480; size := 0 |};
                    {| pointer := 65536; size := 320 |}] in
  (fun c => (dst c, n c)) <$> fst (copy_samples 2 8192 fragments)
    = [(4096, 1600); (65536, 320); (12288, 1600); (73728, 320)] /\
  reads_consecutively 0 (fst (copy_samples 2 8192 fragments)) /\
  snd (copy_samples 2 8192 fragments)
    = bytes_copied (fst (copy_samples 2 8192 fragments)) /\
  snd (copy_samples 2 8192 fragments) = 2 * fragments_size fragments.
Proof.
  apply (copy_samples_reads_front_to_back 2 8192
           [{| pointer := 4096; size := 1600 |}; {| pointer := 20480; size := 0 |};
            {| pointer := 65536; size := 320 |}]).
  - lia.
  - vm_compute. reflexivity.
Defined.

Example copy_samples_two_channels :
  copy_samples 2 8192 [{| pointer := 4096; size := 1600 |};
                       {| pointer := 65536; size := 320 |}]
  = ([{| dst := 4096; src := 0; n := 1600 |};
      {| dst := 65536; src := 1600; n := 320 |};
      {| dst := 12288; src := 1920; n := 1600 |};
      {| dst := 73728; src := 3520; n := 320 |}], 3840).
Proof. reflexivity. Qed.

End LoopingFilePlayerFacts.
